(** * LiveCodeBench batch runner: [lcb_runner/runner/base_runner.py]

    A shallow embedding of [BaseRunner] (construction, [save_cache],
    [run_single], [run_batch], [run_main]) as state-passing functions, and
    the properties of the batch engine proved about it. *)

From Stdlib Require Import ZArith String Ascii List Lia Permutation.
From stdpp Require Import base option list gmap strings fin_maps.

Local Open Scope Z_scope.

(** ** Python values handled by the runner *)

(** A chat message is a [dict[str, str]]; Python dictionaries keep insertion
    order and [json.dumps] emits the items in that order. *)
Definition message : Type := list (string * string).

(** [prompt : str | list[dict[str, str]]]. *)
Inductive prompt : Type :=
  | PStr (text : string)
  | PList (msgs : list message).

(** What ends up in [outputs] and in the cache: a list of strings (what a
    worker returns) or a bare string (the [""] elements that
    [outputs.extend([""] * n)] adds one by one). *)
Inductive pyval : Type :=
  | VStr (s : string)
  | VList (items : list string).

Global Instance prompt_eq_dec : EqDecision prompt.
Proof. solve_decision. Defined.

Global Instance pyval_eq_dec : EqDecision pyval.
Proof. solve_decision. Defined.

(** Python's [len]: characters of a string, elements of a list. *)
Definition py_len (v : pyval) : Z :=
  match v with
  | VStr s => Z.of_nat (String.length s)
  | VList items => Z.of_nat (List.length items)
  end.

(** [isinstance(prompt, list)] and [type(prompt) is list]. *)
Definition is_list (p : prompt) : bool :=
  match p with PList _ => true | PStr _ => false end.

(** [prompt == ""]: a list never equals a string. *)
Definition is_empty_str (p : prompt) : bool :=
  match p with PStr s => String.eqb s EmptyString | PList _ => false end.

(** Exceptions that can leave the runner's methods.  [WorkerRaised] wraps
    whatever the subclass's [_run_single] raised, with its text. *)
Inductive exn : Type :=
  | UnboundLocalError (name : string)
  | AssertionError
  | IndexError
  | WorkerRaised (tb : string).

Inductive result (A : Type) : Type :=
  | Ok (a : A)
  | Raise (e : exn).
Arguments Ok {A} a.
Arguments Raise {A} e.

Definition exn_tb (e : exn) : string :=
  match e with
  | UnboundLocalError name =>
      "UnboundLocalError: cannot access local variable '" +:+ name +:+ "'"
  | AssertionError => "AssertionError"
  | IndexError => "IndexError: list index out of range"
  | WorkerRaised tb => tb
  end.

(** ** [json.dumps] on a list of messages

    The default encoder: separators [", "] and [": "], [ensure_ascii], on
    strings whose characters are code points below 256. *)
Module Json.

Definition quote : ascii := ascii_of_nat 34.
Definition backslash : ascii := ascii_of_nat 92.

Definition hex_digit (d : nat) : ascii :=
  if (d <? 10)%nat then ascii_of_nat (48 + d) else ascii_of_nat (87 + d).

Definition escape_char (c : ascii) : string :=
  let k := nat_of_ascii c in
  if (k =? 34)%nat then String backslash (String quote EmptyString)
  else if (k =? 92)%nat then String backslash (String backslash EmptyString)
  else if (k =? 10)%nat then "\n"
  else if (k =? 13)%nat then "\r"
  else if (k =? 9)%nat then "\t"
  else if (k =? 8)%nat then "\b"
  else if (k =? 12)%nat then "\f"
  else if ((k <? 32) || (126 <? k))%nat then
    "\u00" +:+ String (hex_digit (k / 16)) (String (hex_digit (k mod 16)) EmptyString)
  else String c EmptyString.

Fixpoint escape (s : string) : string :=
  match s with
  | EmptyString => EmptyString
  | String c s' => escape_char c +:+ escape s'
  end.

Definition dumps_str (s : string) : string :=
  String quote (escape s +:+ String quote EmptyString).

Fixpoint join (sep : string) (parts : list string) : string :=
  match parts with
  | [] => EmptyString
  | [x] => x
  | x :: rest => x +:+ sep +:+ join sep rest
  end.

Definition dumps_item (kv : string * string) : string :=
  dumps_str (fst kv) +:+ ": " +:+ dumps_str (snd kv).

Definition dumps_dict (m : message) : string :=
  "{" +:+ join ", " (map dumps_item m) +:+ "}".

Definition dumps (msgs : list message) : string :=
  "[" +:+ join ", " (map dumps_dict msgs) +:+ "]".

End Json.

(** Modelled from the spec: the class of the objects that the worker pool
    hands back is defined in [lcb_runner/utils/multiprocess.py], which is not
    among the sources.  The spec's [Outcome] is a success with its result or
    a failure with its diagnostic; [run_batch] reads [result] when
    [is_success()] holds and [status] and [exception_tb] otherwise. *)
Inductive Outcome : Type :=
  | Success (result : pyval)
  | Failure (status : string) (exception_tb : string).

(** One record of the graded run that self-repair replays. *)
Record check : Type := mkCheck {
  question_content : string;
  code_list : list string;
  output_list : list pyval;
  graded_list : list bool;
  metadata : list string;
}.

(** What [run_main] returns: per record, one output per prior attempt
    (self-repair), or the outputs of [run_batch]. *)
Inductive main_outputs : Type :=
  | Repaired (outputs : list (list pyval))
  | Generated (outputs : list pyval).

(** ** The environment of a runner *)

(** The serializer used for cache keys ([json.dumps]).  The engine only
    relies on it being a function of the prompt. *)
Class Serializer : Type := { json_dumps : list message → string }.

(** [BaseRunner] is abstract: a subclass supplies [_run_single], the call to
    the backend.  [W] is the state of that backend; the call returns the
    list of generations or raises (the text of the exception on the left). *)
Class Backend (W : Type) : Type :=
  { _run_single : prompt → W → (string + list string) * W }.

(** Modelled from the spec: the [Scenario] enumeration lives in
    [lcb_runner/runner/scenario_router.py], which is not among the sources;
    [run_main] only tells [selfrepair] from every other member. *)
Inductive Scenario : Type :=
  | selfrepair
  | other_scenario.

(** [self.args]: the fields the runner reads.  [use_cache] is not a field
    here: [__init__] makes [self.cache] a dictionary exactly when
    [args.use_cache] holds, so the flag is read off the cache. *)
Record Args : Type := mkArgs {
  n : Z;
  multiprocess : Z;
  scenario : Scenario;
}.

(** The runner's mutable state and what it acts on: the backend's state,
    the trace of worker invocations, the lines printed, [self.cache] and
    the cache file at [self.cache_path] ([None]: no file). *)
Record state (W : Type) : Type := mkState {
  world : W;
  calls : list prompt;
  stdout : list string;
  cache : option (gmap string pyval);
  disk : option (gmap string pyval);
}.
Arguments mkState {W}.
Arguments world {W}.
Arguments calls {W}.
Arguments stdout {W}.
Arguments cache {W}.
Arguments disk {W}.

(** ** A state and exception monad *)

Section Monad.
Context {W : Type}.

Definition M (A : Type) : Type := state W → result A * state W.

Definition ret {A} (a : A) : M A := λ st, (Ok a, st).

Definition raise {A} (e : exn) : M A := λ st, (Raise e, st).

Definition bind {A B} (m : M A) (k : A → M B) : M B :=
  λ st, match m st with
        | (Ok a, st') => k a st'
        | (Raise e, st') => (Raise e, st')
        end.

(** [print(line)] *)
Definition print (line : string) : M unit :=
  λ st, (Ok tt, mkState (world st) (calls st) (stdout st ++ [line]) (cache st) (disk st)).

(** [self.cache[key] = value] *)
Definition cache_store (key : string) (value : pyval) : M unit :=
  λ st, (Ok tt, mkState (world st) (calls st) (stdout st)
                        (insert key value <$> cache st) (disk st)).
End Monad.

Notation "'let*' x ':=' m 'in' k" := (bind m (λ x, k))
  (at level 10, x name, m at level 100, k at level 200, only parsing).

Section Monad_iter.
Context {W : Type}.

(** A list comprehension over calls that may raise. *)
Fixpoint mapM {A B} (f : A → M (W:=W) B) (l : list A) : M (list B) :=
  match l with
  | [] => ret []
  | x :: l' => let* y := f x in let* ys := mapM f l' in ret (y :: ys)
  end.
End Monad_iter.

(** ** [BaseRunner] *)

Section BaseRunner.
Context {W : Type} {serializer : Serializer} {backend : Backend W}.
Variable args : Args.

(** [__init__]: with [use_cache], the cache is the content of the cache
    file if there is one and the empty dictionary otherwise; without, it
    is [None]. *)
Definition BaseRunner_init (use_cache : bool) (w : W)
    (file : option (gmap string pyval)) : state W :=
  mkState w [] []
    (if use_cache then Some (default ∅ file) else None)
    file.

(** [save_cache]: [json.dump(self.cache, f)] when caching is on. *)
Definition save_cache : M (W:=W) unit :=
  λ st, match cache st with
        | Some c => (Ok tt, mkState (world st) (calls st) (stdout st) (cache st) (Some c))
        | None => (Ok tt, st)
        end.

(** [call_method(prompt)]: one invocation of the worker, recorded in
    [calls]. *)
Definition call_method (p : prompt) : M (W:=W) (list string) :=
  λ st, let '(r, w') := _run_single p (world st) in
        let st' := mkState w' (calls st ++ [p]) (stdout st) (cache st) (disk st) in
        match r with
        | inl tb => (Raise (WorkerRaised tb), st')
        | inr items => (Ok items, st')
        end.

(** The tail of [run_single]: call the worker and assert the count. *)
Definition invoke (p : prompt) : M (W:=W) pyval :=
  let* items := call_method p in
  if py_len (VList items) =? n args then ret (VList items)
  else raise AssertionError.

(** [run_single(combined_args)], with [combined_args = (prompt, cache,
    args, call_method)]; [args] and [call_method] are those of the
    runner.  [prompt_cache] is a local variable that is bound only in the
    [isinstance(prompt, list)] branch: [None] stands for unbound. *)
Definition run_single (combined_args : prompt * option (gmap string pyval))
    : M (W:=W) pyval :=
  let '(p, cache) := combined_args in
  let prompt_cache : option string :=
    match p with
    | PList msgs => Some (json_dumps msgs)
    | PStr _ => None
    end in
  match cache with
  | None => invoke p
  | Some c =>
      match prompt_cache with
      | None => raise (UnboundLocalError "prompt_cache")
      | Some key =>
          match c !! key with
          | Some v => if py_len v =? n args then ret v else invoke p
          | None => invoke p
          end
      end
  end.

(** Modelled from the spec: what a worker of the pool does with one task.
    After section 4.4, a task that raises does not stop the pool: the
    exception is captured as a [Failure] that carries its diagnostic. *)
Definition capture {A} (func : A → M (W:=W) pyval) (a : A) : M (W:=W) Outcome :=
  λ st, match func a st with
        | (Ok v, st') => (Ok (Success v), st')
        | (Raise e, st') => (Ok (Failure "EXCEPTION" (exn_tb e)), st')
        end.

(** Modelled from the spec: the pool at work.  The tasks complete in some
    order, [order], which the scheduler chooses; each outcome is recorded
    under the index of its task. *)
Fixpoint run_pool {A} (func : A → M (W:=W) pyval) (arguments : list A)
    (order : list nat) (done : gmap nat Outcome) : M (W:=W) (gmap nat Outcome) :=
  match order with
  | [] => ret done
  | i :: rest =>
      match arguments !! i with
      | Some a =>
          let* o := capture func a in
          run_pool func arguments rest (<[i := o]> done)
      | None => run_pool func arguments rest done
      end
  end.

(** Modelled from the spec: [run_tasks_in_parallel] is defined in
    [lcb_runner/utils/multiprocess.py], which is not among the sources.
    After section 4.4, the outcomes are re-associated with the index of
    their task, so that the sequence returned follows the input order
    whatever the completion order was. *)
Definition run_tasks_in_parallel {A} (func : A → M (W:=W) pyval)
    (arguments : list A) (order : list nat) : M (W:=W) (list Outcome) :=
  let* done := run_pool func arguments order ∅ in
  ret (omap (λ i, done !! i) (seq 0 (length arguments))).

(** The loop over [parallel_outputs]: [append] the result of a success;
    for a failure print three lines and [extend] with [n] empty strings. *)
Fixpoint collect (parallel_outputs : list Outcome) (outputs : list pyval)
    : M (W:=W) (list pyval) :=
  match parallel_outputs with
  | [] => ret outputs
  | Success r :: rest => collect rest (outputs ++ [r])
  | Failure status tb :: rest =>
      let* _ := print "Failed to run the model for some prompts" in
      let* _ := print status in
      let* _ := print tb in
      collect rest (outputs ++ replicate (Z.to_nat (n args)) (VStr EmptyString))
  end.

(** The loop [for prompt, output in zip(prompts, outputs)].
    [prompt_cache] is assigned only for a list prompt and otherwise keeps
    the value of the previous iteration ([None]: still unbound). *)
Fixpoint store_outputs (pairs : list (prompt * pyval)) (prompt_cache : option string)
    : M (W:=W) unit :=
  match pairs with
  | [] => ret tt
  | (p, output) :: rest =>
      let prompt_cache :=
        match p with
        | PList msgs => Some (json_dumps msgs)
        | PStr _ => prompt_cache
        end in
      match prompt_cache with
      | None => raise (UnboundLocalError "prompt_cache")
      | Some key =>
          let* _ := cache_store key output in
          store_outputs rest prompt_cache
      end
  end.

(** [run_batch(prompts)].  Every element of [arguments] carries the cache
    as it is when the batch starts; nothing writes to it before the final
    loop.  [order] is only read on the parallel path. *)
Definition run_batch (prompts : list prompt) (order : list nat) : M (W:=W) (list pyval) :=
  λ st,
    let arguments := map (λ p, (p, cache st)) prompts in
    (let* outputs :=
       (if 1 <? multiprocess args then
          let* parallel_outputs := run_tasks_in_parallel run_single arguments order in
          collect parallel_outputs []
        else mapM run_single arguments) in
     let* _ :=
       (λ st', match cache st' with
               | Some _ => store_outputs (zip prompts outputs) None st'
               | None => ret tt st'
               end) in
     ret outputs) st.

(** ** [run_main] *)

Section run_main.
Context {Problem : Type}.
(** [format_prompt] is called with a problem (and the model style) in
    the benchmark scenarios and with the fields of a graded attempt in
    self-repair; the two uses are two functions here. *)
Variable format_prompt : Problem → prompt.
Variable format_repair_prompt : string → string → bool → string → prompt.

(** [l[i]] *)
Definition index {A} (l : list A) (i : nat) : M (W:=W) A :=
  match l !! i with
  | Some x => ret x
  | None => raise IndexError
  end.

(** The body of the loop [for i in range(len(checked_base_codes))]. *)
Definition repair_attempt (chk : check) (i : nat) : M (W:=W) pyval :=
  let* code := index (code_list chk) i in
  let* graded := index (graded_list chk) i in
  let* meta := index (metadata chk) i in
  let p := format_repair_prompt (question_content chk) code graded meta in
  if is_empty_str p || negb (is_list p) then index (output_list chk) i
  else let* items := call_method p in ret (VList items).

Definition repair_check (chk : check) : M (W:=W) (list pyval) :=
  mapM (repair_attempt chk) (seq 0 (length (code_list chk))).

(** [check_metadata] is the content of the graded-run file. *)
Definition run_main (benchmark : list Problem) (check_metadata : list check)
    (order : list nat) : M (W:=W) main_outputs :=
  match scenario args with
  | selfrepair =>
      let* outputs := mapM repair_check check_metadata in
      ret (Repaired outputs)
  | other_scenario =>
      let prompts := map format_prompt benchmark in
      let* outputs := run_batch prompts order in
      let* _ := save_cache in
      ret (Generated outputs)
  end.
End run_main.

End BaseRunner.

(** ** Vocabulary of the statements *)

Section Vocabulary.
Context {W : Type} {serializer : Serializer} {backend : Backend W}.
Variable args : Args.

(** The lookup at the head of [run_single], as a function: the entry
    under the prompt's key when the cache has one whose length is [n]. *)
Definition cache_get (c : option (gmap string pyval)) (p : prompt) : option pyval :=
  match c, p with
  | Some cm, PList msgs =>
      match cm !! json_dumps msgs with
      | Some v => if py_len v =? n args then Some v else None
      | None => None
      end
  | _, _ => None
  end.

(** [prompt_cache] is bound where [run_single] reads it: the prompt is a
    list, or the test [cache is not None] already fails. *)
Definition bound (c : option (gmap string pyval)) (p : prompt) : bool :=
  match c with
  | None => true
  | Some _ => is_list p
  end.

(** The backend answers the prompt with [n] strings, whatever its state. *)
Definition succeeds (p : prompt) : Prop :=
  ∀ w, ∃ items w', _run_single p w = (inr items, w') ∧
                   Z.of_nat (length items) = n args.

(** A task that cannot fail: served from the cache, or computed by a
    backend that succeeds on it. *)
Definition task_ok (c : option (gmap string pyval)) (p : prompt) : Prop :=
  is_Some (cache_get c p) ∨ (bound c p = true ∧ succeeds p).

(** [v] is a result for task [p]: its cache entry, or else [n] strings
    that the backend returned for [p]. *)
Definition result_for (c : option (gmap string pyval)) (p : prompt) (v : pyval) : Prop :=
  cache_get c p = Some v ∨
  (cache_get c p = None ∧
   ∃ w w' items, _run_single p w = (inr items, w') ∧ v = VList items ∧
                 py_len v = n args).

(** The tasks of a batch that are not served from the cache. *)
Definition misses (c : option (gmap string pyval)) (prompts : list prompt) : list prompt :=
  filter (λ p, cache_get c p = None) prompts.

(** [o] is what the pool records for task [p]: the outcome of
    [run_single] on it, in some state of the run. *)
Definition captured (c : option (gmap string pyval)) (p : prompt) (o : Outcome) : Prop :=
  ∃ sa sb : state W, capture (run_single args) (p, c) sa = (Ok o, sb).

(** The lines that [run_batch] prints for an outcome. *)
Definition failure_lines (o : Outcome) : list string :=
  match o with
  | Success _ => []
  | Failure status tb => ["Failed to run the model for some prompts"; status; tb]
  end.

(** The worker call, if any, that the task at index [i] costs. *)
Definition missed_at (c : option (gmap string pyval)) (prompts : list prompt)
    (i : nat) : list prompt :=
  match prompts !! i with
  | Some p => misses c [p]
  | None => []
  end.

(** The first phase of [run_batch], up to the cache update: the pool and
    the loop over its outcomes, or the sequential comprehension. *)
Definition execute (prompts : list prompt) (order : list nat) : M (W:=W) (list pyval) :=
  λ st,
    (if 1 <? multiprocess args then
       let* parallel_outputs :=
         run_tasks_in_parallel (run_single args)
           (map (λ p, (p, cache st)) prompts) order in
       collect args parallel_outputs []
     else mapM (run_single args) (map (λ p, (p, cache st)) prompts)) st.

(** The key under which the final loop of [run_batch] stores the output
    of a list prompt. *)
Definition key_of (p : prompt) : option string :=
  match p with
  | PList msgs => Some (json_dumps msgs)
  | PStr _ => None
  end.

(** Dictionary assignments in sequence. *)
Definition written (cm : gmap string pyval) (pairs : list (string * pyval))
    : gmap string pyval :=
  foldl (λ m kv, <[kv.1 := kv.2]> m) cm pairs.

(** The (key, output) pairs of [zip(prompts, outputs)] for list prompts. *)
Definition keyed (prompts : list prompt) (outputs : list pyval) : list (string * pyval) :=
  omap (λ po, k ← key_of po.1; Some (k, po.2)) (zip prompts outputs).

(** The state with another cache and another cache file. *)
Definition with_store (c d : option (gmap string pyval)) (st : state W) : state W :=
  mkState (world st) (calls st) (stdout st) c d.

(** A computation that neither reads nor writes the cache and the cache
    file: it runs alike whatever they hold, and hands them back. *)
Definition store_blind {A} (m : M (W:=W) A) : Prop :=
  ∀ c d st, m (with_store c d st) = ((m st).1, with_store c d (m st).2).

Section repair_vocabulary.
Variable format_repair_prompt : string → string → bool → string → prompt.

(** The repair prompt built for attempt [i] of a record that has a
    code, a grade and metadata at that index. *)
Definition attempt_prompt (chk : check) (i : nat) : option prompt :=
  code ← code_list chk !! i;
  graded ← graded_list chk !! i;
  meta ← metadata chk !! i;
  Some (format_repair_prompt (question_content chk) code graded meta).

(** The worker calls that replaying an attempt, and a record, costs. *)
Definition attempt_calls (chk : check) (i : nat) : list prompt :=
  match attempt_prompt chk i with
  | Some p => if is_empty_str p || negb (is_list p) then [] else [p]
  | None => []
  end.

Definition check_calls (chk : check) : list prompt :=
  flat_map (attempt_calls chk) (seq 0 (length (code_list chk))).

(** The output expected for attempt [i]: the stored output when the
    repair prompt is empty or not a list, else a list the worker
    returned for the prompt. *)
Definition repaired (chk : check) (i : nat) (v : pyval) : Prop :=
  ∃ p, attempt_prompt chk i = Some p ∧
       if is_empty_str p || negb (is_list p)
       then output_list chk !! i = Some v
       else ∃ items w w', _run_single p w = (inr items, w') ∧ v = VList items.
End repair_vocabulary.

(** The lists of a record have one entry per attempt. *)
Definition aligned (chk : check) : Prop :=
  length (graded_list chk) = length (code_list chk) ∧
  length (metadata chk) = length (code_list chk) ∧
  length (output_list chk) = length (code_list chk).

(** A record that self-repair can replay: every attempt has a grade and
    metadata, and a stored output where the repair prompt asks for it. *)
Definition replayable (format_repair_prompt : string → string → bool → string → prompt)
    (chk : check) : Prop :=
  ∀ i, (i < length (code_list chk))%nat →
    ∃ p, attempt_prompt format_repair_prompt chk i = Some p ∧
         (is_empty_str p || negb (is_list p) = true →
          is_Some (output_list chk !! i)).

(** What the loop over the pool's outcomes adds to [outputs] for one
    outcome. *)
Definition placed (o : Outcome) : list pyval :=
  match o with
  | Success r => [r]
  | Failure _ _ => replicate (Z.to_nat (n args)) (VStr EmptyString)
  end.

(** The final loop of [run_batch] raises at its first iteration when that
    one finds [prompt_cache] unbound. *)
Definition loop_raises (pairs : list (prompt * pyval)) (prompt_cache : option string)
    : bool :=
  match pairs, prompt_cache with
  | (PStr _, _) :: _, None => true
  | _, _ => false
  end.

(** The key that the loop holds in [prompt_cache] after an iteration. *)
Definition carry (prompt_cache : option string) (p : prompt) : option string :=
  match key_of p with
  | Some k => Some k
  | None => prompt_cache
  end.

(** The dictionary assignments that the final loop of [run_batch] makes,
    in order: a pair with a list prompt is stored under the prompt's key, a
    pair with another prompt under the key of the iteration before. *)
Fixpoint assignments (pairs : list (prompt * pyval)) (prompt_cache : option string)
    : list (string * pyval) :=
  match pairs with
  | [] => []
  | (p, o) :: rest =>
      match carry prompt_cache p with
      | Some k => (k, o) :: assignments rest (Some k)
      | None => []
      end
  end.
(** A task that fails whatever the state of the backend: the cache does
    not serve it, and [prompt_cache] is unbound where it is read, or the
    worker raises or returns a list whose length is not [n]. *)
Definition task_fails (c : option (gmap string pyval)) (p : prompt) : Prop :=
  cache_get c p = None ∧
  (bound c p = false ∨
   ∀ w, match (_run_single p w).1 with
        | inl _ => True
        | inr items => Z.of_nat (length items) ≠ n args
        end).

(** What an outcome recorded for task [p] tells: a success carries a
    result for [p]; a failure carries the status [EXCEPTION] and the
    diagnostic of an exception that [run_single] raised on [p]. *)
Definition outcome_of (c : option (gmap string pyval)) (p : prompt) (o : Outcome) : Prop :=
  match o with
  | Success r => result_for c p r
  | Failure status tb =>
      status = "EXCEPTION" ∧
      ∃ e (sa sb : state W), run_single args (p, c) sa = (Raise e, sb) ∧ tb = exn_tb e
  end.

(** The failed tasks among the outcomes of a pool, and their number. *)
Definition is_failure (o : Outcome) : bool :=
  match o with
  | Success _ => false
  | Failure _ _ => true
  end.

Definition failures (parallel_outputs : list Outcome) : nat :=
  length (List.filter is_failure parallel_outputs).
(** The state of the run when the pool comes to position [k] of the
    completion order: the tasks at the positions before [k] have run. *)
Definition reached (c : option (gmap string pyval)) (prompts : list prompt)
    (order : list nat) (k : nat) (st : state W) : state W :=
  (run_pool (run_single args) (map (λ p, (p, c)) prompts) (take k order) ∅ st).2.
End Vocabulary.

(** ** Concrete runners used to evaluate the engine *)

Module Demo.

Global Instance python_json : Serializer := {| json_dumps := Json.dumps |}.

Definition user (content : string) : list message :=
  [[("role", "user"); ("content", content)]].

Definition task_A : prompt := PList (user "A").
Definition task_B : prompt := PList (user "B").

(** A backend that always answers [["x1", "x2"]]. *)
Definition steady : Backend unit :=
  {| _run_single := λ _ w, (inr ["x1"; "x2"], w) |}.

(** A backend that is down. *)
Definition broken : Backend unit :=
  {| _run_single := λ _ w, (inl "RuntimeError: backend down", w) |}.

(** A backend that numbers its answers: the k-th call answers with the
    decimal digit of k twice. *)
Definition counting : Backend nat :=
  {| _run_single := λ _ k,
       let d := String (ascii_of_nat (48 + k)) EmptyString in (inr [d; d], S k) |}.

(** A backend that raises on task B only. *)
Definition flaky : Backend unit :=
  {| _run_single := λ p w,
       if decide (p = task_B) then (inl "RuntimeError: B", w)
       else (inr ["x1"; "x2"], w) |}.

(** A backend that answers with one string whatever [n] is. *)
Definition short : Backend unit :=
  {| _run_single := λ _ w, (inr ["only"], w) |}.

Definition key_A : string := Json.dumps (user "A").
Definition key_B : string := Json.dumps (user "B").

Definition x1x2 : pyval := VList ["x1"; "x2"].

(** Benchmarks whose problems are the prompts themselves. *)
Definition same (p : prompt) : prompt := p.

(** A repair prompt: nothing to do for an attempt that passed, else a
    conversation about the failing code. *)
Definition repair_prompt_for (question code : string) (graded : bool)
    (meta : string) : prompt :=
  if graded then PStr EmptyString else PList (user code).

Definition graded_run : list check :=
  [mkCheck "Q" ["c0"; "c1"] [VStr "o0"; VStr "o1"] [true; false] ["m0"; "m1"]].

Definition ABA : list prompt := [task_A; task_B; task_A].

(** A repair prompt that is never a list. *)
Definition no_repair (question code : string) (graded : bool) (meta : string) : prompt :=
  PStr EmptyString.

(** A runner loaded from a cache file that serves task A. *)
Definition stocked : state unit :=
  BaseRunner_init true tt (Some {[key_A := x1x2]}).

Definition args_seq : Args := mkArgs 2 1 other_scenario.
Definition args_par : Args := mkArgs 2 4 other_scenario.
Definition args_repair : Args := mkArgs 2 1 selfrepair.

Definition fresh (use_cache : bool) : state unit := BaseRunner_init use_cache tt None.

End Demo.

(** * Properties *)

Section Proofs.
Context {W : Type} {serializer : Serializer} {backend : Backend W}.
Variable args : Args.

Implicit Types (p : prompt) (c : option (gmap string pyval)) (st : state W).
Implicit Types (v : pyval) (cm : gmap string pyval).

(** ** The monad's iteration *)

Lemma mapM_cons {A B} (f : A → M (W:=W) B) (x : A) (l : list A) st :
  mapM f (x :: l) st =
    match f x st with
    | (Ok y, st1) =>
        match mapM f l st1 with
        | (Ok ys, st2) => (Ok (y :: ys), st2)
        | (Raise e, st2) => (Raise e, st2)
        end
    | (Raise e, st1) => (Raise e, st1)
    end.
Proof.
  cbn [mapM]. unfold bind, ret.
  destruct (f x st) as [[y|e] st1]; [|done].
  by destruct (mapM f l st1) as [[ys|e] st2].
Qed.

(** A list comprehension stops at the first element that raises: the
    elements after it are not evaluated. *)
Lemma mapM_raise {A B} (f : A → M (W:=W) B) (pre : list A) (x : A) (post : list A)
    st ys st1 e st2 :
  mapM f pre st = (Ok ys, st1) →
  f x st1 = (Raise e, st2) →
  mapM f (pre ++ x :: post) st = (Raise e, st2).
Proof.
  revert st ys. induction pre as [|a pre IH]; intros st ys.
  - intros Heq; inversion Heq; subst. intros Hx. simpl app.
    by rewrite mapM_cons, Hx.
  - rewrite mapM_cons. simpl app. rewrite mapM_cons.
    destruct (f a st) as [[y|e'] st'] eqn:Ha; [|done].
    destruct (mapM f pre st') as [[ys'|e'] st''] eqn:Hpre; [|done].
    intros Heq; inversion Heq; subst. intros Hx.
    by rewrite (IH _ _ Hpre Hx).
Qed.

(** ** [run_single], equationally *)

Lemma invoke_eq p st :
  invoke args p st =
    let '(r, w') := _run_single p (world st) in
    let st' := mkState w' (calls st ++ [p]) (stdout st) (cache st) (disk st) in
    match r with
    | inl tb => (Raise (WorkerRaised tb), st')
    | inr items =>
        if Z.of_nat (length items) =? n args then (Ok (VList items), st')
        else (Raise AssertionError, st')
    end.
Proof.
  unfold invoke, bind, call_method.
  destruct (_run_single p (world st)) as [[tb|items] w']; simpl; [done|].
  by destruct (_ =? _).
Qed.

Lemma run_single_eq p c st :
  run_single args (p, c) st =
    match cache_get args c p with
    | Some v => (Ok v, st)
    | None =>
        if bound c p then invoke args p st
        else (Raise (UnboundLocalError "prompt_cache"), st)
    end.
Proof.
  unfold run_single, cache_get, bound.
  destruct c as [cm|], p as [text|msgs]; simpl; try done.
  destruct (cm !! json_dumps msgs) as [v|]; [|done].
  by destruct (py_len v =? n args).
Qed.

Lemma cache_get_Some c p v :
  cache_get args c p = Some v ↔
  ∃ cm msgs, c = Some cm ∧ p = PList msgs ∧
             cm !! json_dumps msgs = Some v ∧ py_len v = n args.
Proof.
  unfold cache_get. split.
  - destruct c as [cm|], p as [text|msgs]; try done.
    destruct (cm !! json_dumps msgs) as [v0|] eqn:Hk; [|done].
    destruct (Z.eqb_spec (py_len v0) (n args)); [|done].
    intros [= ->]. by exists cm, msgs.
  - intros (cm & msgs & -> & -> & -> & Hn).
    by rewrite (proj2 (Z.eqb_eq _ _) Hn).
Qed.

Lemma app_singleton_neq {A} (l : list A) (x : A) : l ++ [x] ≠ l.
Proof.
  intros H. apply (f_equal length) in H. rewrite length_app in H. simpl in H. lia.
Qed.

(** Whatever [invoke] does, it records exactly one call and leaves the
    cache, the file and the output stream alone. *)
Lemma invoke_frame p st r st' :
  invoke args p st = (r, st') →
  calls st' = calls st ++ [p] ∧ stdout st' = stdout st ∧
  cache st' = cache st ∧ disk st' = disk st.
Proof.
  rewrite invoke_eq.
  destruct (_run_single p (world st)) as [[tb|items] w'].
  - intros Heq; by inversion Heq.
  - destruct (_ =? _); intros Heq; by inversion Heq.
Qed.

Lemma run_single_frame p c st r st' :
  run_single args (p, c) st = (r, st') →
  stdout st' = stdout st ∧ cache st' = cache st ∧ disk st' = disk st ∧
  (calls st' = calls st ∨ calls st' = calls st ++ [p]).
Proof.
  rewrite run_single_eq.
  destruct (cache_get args c p) as [v|].
  - intros Heq; inversion Heq; subst. auto.
  - destruct (bound c p).
    + intros H. apply invoke_frame in H as (? & ? & ? & ?). auto.
    + intros Heq; inversion Heq; subst. auto.
Qed.

(** ** The execution phase of [run_batch] *)

Lemma misses_cons c p prompts :
  misses args c (p :: prompts) = misses args c [p] ++ misses args c prompts.
Proof. unfold misses. rewrite !filter_cons, filter_nil. by case_decide. Qed.

Lemma misses_app c l1 l2 :
  misses args c (l1 ++ l2) = misses args c l1 ++ misses args c l2.
Proof. apply filter_app. Qed.

Lemma misses_all c prompts :
  (∀ p, p ∈ prompts → cache_get args c p = None) → misses args c prompts = prompts.
Proof.
  induction prompts as [|p prompts IH]; intros Hall; [done|].
  unfold misses in *. rewrite filter_cons.
  rewrite decide_True by (apply Hall, list_elem_of_here).
  rewrite IH; [done|]. intros q Hq. by apply Hall, list_elem_of_further.
Qed.

Lemma misses_none c prompts :
  (∀ p, p ∈ prompts → is_Some (cache_get args c p)) → misses args c prompts = [].
Proof.
  induction prompts as [|p prompts IH]; intros Hall; [done|].
  unfold misses in *. rewrite filter_cons.
  destruct (Hall p (list_elem_of_here _ _)) as [v Hv].
  rewrite decide_False by (rewrite Hv; discriminate).
  apply IH. intros q Hq. by apply Hall, list_elem_of_further.
Qed.

Lemma run_single_calls c p st r st' :
  run_single args (p, c) st = (r, st') → bound c p = true →
  calls st' = calls st ++ misses args c [p].
Proof.
  rewrite run_single_eq. intros Hrun Hb. unfold misses.
  rewrite filter_cons, filter_nil.
  destruct (cache_get args c p) as [v|] eqn:Hget.
  - case_decide; [discriminate|]. inversion Hrun; subst. by rewrite app_nil_r.
  - case_decide; [|done]. rewrite Hb in Hrun.
    by apply invoke_frame in Hrun as [? _].
Qed.

Lemma run_single_ok c p st :
  task_ok args c p →
  ∃ v st', run_single args (p, c) st = (Ok v, st') ∧ result_for args c p v.
Proof.
  intros Hok. rewrite run_single_eq.
  destruct (cache_get args c p) as [v|] eqn:Hget.
  - exists v, st. split; [done|]. by left.
  - destruct Hok as [[v Hv]|[Hb Hs]]; [rewrite Hget in Hv; discriminate|].
    rewrite Hb, invoke_eq.
    destruct (Hs (world st)) as (items & w' & Hw & Hn). rewrite Hw.
    rewrite (proj2 (Z.eqb_eq _ _) Hn).
    eexists _, _. split; [done|].
    right. split; [done|]. by exists (world st), w', items.
Qed.

Lemma task_ok_bound c p : task_ok args c p → bound c p = true.
Proof.
  intros [[v Hv]|[Hb _]]; [|done].
  by apply cache_get_Some in Hv as (cm & msgs & -> & -> & _).
Qed.

Lemma mapM_run_single_frame c prompts st r st' :
  mapM (run_single args) (map (λ p, (p, c)) prompts) st = (r, st') →
  stdout st' = stdout st ∧ cache st' = cache st ∧ disk st' = disk st.
Proof.
  revert st r st'. induction prompts as [|p prompts IH]; intros st r st'; cbn [map].
  - intros Heq; by inversion Heq.
  - rewrite mapM_cons.
    destruct (run_single args (p, c) st) as [[v|e] st1] eqn:H1;
      apply run_single_frame in H1 as (Ho & Hc & Hd & _).
    + destruct (mapM _ _ st1) as [[vs|e] st2] eqn:H2;
        apply IH in H2 as (? & ? & ?);
        intros Heq; inversion Heq; subst; repeat split; congruence.
    + intros Heq; by inversion Heq; subst.
Qed.

Lemma mapM_run_single_ok c prompts st :
  Forall (task_ok args c) prompts →
  ∃ outputs st',
    mapM (run_single args) (map (λ p, (p, c)) prompts) st = (Ok outputs, st') ∧
    Forall2 (result_for args c) prompts outputs ∧
    calls st' = calls st ++ misses args c prompts.
Proof.
  intros Hall. revert st.
  induction Hall as [|p prompts Hp _ IH]; intros st.
  - exists [], st. simpl. rewrite app_nil_r. by repeat split.
  - destruct (run_single_ok c p st Hp) as (v & st1 & Hrun & Hv).
    destruct (IH st1) as (outputs & st2 & Hrest & Hvs & Hcalls2).
    exists (v :: outputs), st2. cbn [map]. rewrite mapM_cons, Hrun, Hrest.
    split; [done|]. split; [by constructor|].
    rewrite misses_cons, Hcalls2.
    rewrite (run_single_calls _ _ _ _ _ Hrun (task_ok_bound _ _ Hp)).
    by rewrite <- app_assoc.
Qed.

Lemma capture_run_single c p st :
  ∃ o st', capture (run_single args) (p, c) st = (Ok o, st') ∧
    stdout st' = stdout st ∧ cache st' = cache st ∧ disk st' = disk st ∧
    (bound c p = true → calls st' = calls st ++ misses args c [p]).
Proof.
  unfold capture.
  destruct (run_single args (p, c) st) as [[v|e] st'] eqn:Hrun;
    (eexists _, st'; split; [done|];
     pose proof (run_single_frame _ _ _ _ _ Hrun) as (? & ? & ? & _);
     repeat split; try done; intros Hb; by eapply run_single_calls).
Qed.

(** The pool never raises; it records one outcome per index of [order]
    that names a task. *)
Lemma run_pool_spec c prompts order done st :
  ∃ done' st',
    run_pool (run_single args) (map (λ p, (p, c)) prompts) order done st
      = (Ok done', st') ∧
    stdout st' = stdout st ∧ cache st' = cache st ∧ disk st' = disk st ∧
    (Forall (λ p, bound c p = true) prompts →
       calls st' = calls st ++ flat_map (missed_at args c prompts) order) ∧
    (∀ i, (i < length prompts)%nat → i ∈ order → is_Some (done' !! i)) ∧
    (∀ i, is_Some (done !! i) → is_Some (done' !! i)) ∧
    (∀ i o, done' !! i = Some o →
            done !! i = Some o ∨ ∃ p, prompts !! i = Some p ∧ captured args c p o).
Proof.
  revert done st.
  induction order as [|i order IH]; intros done st.
  - exists done, st. simpl. rewrite app_nil_r. repeat split; try done.
    + intros i _ Hi. by apply elem_of_nil in Hi.
    + intros i o Hi. by left.
  - simpl. rewrite list_lookup_fmap. unfold missed_at at 1.
    destruct (prompts !! i) as [p|] eqn:Hp; simpl.
    + destruct (capture_run_single c p st) as (o & st1 & Hcap & Ho & Hc & Hd & Hcalls).
      unfold bind at 1. rewrite Hcap.
      destruct (IH (<[i := o]> done) st1)
        as (done' & st2 & Hrest & Ho2 & Hc2 & Hd2 & Hcalls2 & Hcov & Hmono & Hsrc).
      exists done', st2. split; [done|].
      split; [congruence|]. split; [congruence|]. split; [congruence|].
      split; [|split; [|split]].
      * intros Hb. rewrite (Hcalls2 Hb), Hcalls, <- app_assoc; [done|].
        exact (Forall_lookup_1 _ _ _ _ Hb Hp).
      * intros j Hj Hin. apply elem_of_cons in Hin as [->|Hin]; [|by apply Hcov].
        apply Hmono. rewrite lookup_insert_eq. by eexists.
      * intros j Hj. apply Hmono. rewrite lookup_insert.
        case_decide; [by eexists|done].
      * intros j o' Hj. destruct (Hsrc j o' Hj) as [Hins|Hcapd]; [|by right].
        rewrite lookup_insert in Hins. case_decide as Hij; [|by left].
        subst j. inversion Hins; subst. right. exists p. split; [done|].
        by exists st, st1.
    + destruct (IH done st)
        as (done' & st2 & Hrest & Ho2 & Hc2 & Hd2 & Hcalls2 & Hcov & Hmono & Hsrc).
      exists done', st2. split; [done|]. repeat split; try done.
      intros j Hj Hin. apply elem_of_cons in Hin as [->|Hin]; [|by apply Hcov].
      apply lookup_lt_is_Some_2 in Hj. rewrite Hp in Hj. by destruct Hj.
Qed.

Lemma reassemble_spec (done : gmap nat Outcome) (k : nat) :
  (∀ i, (i < k)%nat → is_Some (done !! i)) →
  length (omap (λ i, done !! i) (seq 0 k)) = k ∧
  ∀ i, (i < k)%nat → omap (λ i, done !! i) (seq 0 k) !! i = done !! i.
Proof.
  induction k as [|k IH]; intros Hcov.
  - split; [done|]. intros; lia.
  - rewrite seq_S, omap_app. simpl.
    destruct (Hcov k) as [o Ho]; [lia|]. rewrite Ho.
    destruct IH as [Hlen Hlk]; [intros; apply Hcov; lia|].
    split.
    + rewrite length_app, Hlen. simpl. lia.
    + intros i Hi. destruct (decide (i = k)) as [->|Hne].
      * rewrite lookup_app_r by lia. by rewrite Hlen, Nat.sub_diag.
      * rewrite lookup_app_l by lia. apply Hlk. lia.
Qed.

Lemma flat_map_agree {A B} (f g : A → list B) (l : list A) :
  (∀ x, x ∈ l → f x = g x) → flat_map f l = flat_map g l.
Proof.
  induction l as [|x l IH]; intros Hfg; [done|]. simpl.
  rewrite (Hfg x) by apply list_elem_of_here.
  rewrite IH; [done|]. intros y Hy. apply Hfg. by apply list_elem_of_further.
Qed.

Lemma flat_map_missed_at c prompts :
  flat_map (missed_at args c prompts) (seq 0 (length prompts)) = misses args c prompts.
Proof.
  induction prompts as [|p prompts IH] using rev_ind; [done|].
  rewrite length_app, seq_app, flat_map_app, misses_app. simpl.
  rewrite app_nil_r. f_equal.
  - rewrite <- IH. apply flat_map_agree. intros i Hi.
    apply elem_of_seq in Hi. unfold missed_at.
    by rewrite lookup_app_l by lia.
  - unfold missed_at. by rewrite list_lookup_middle.
Qed.

(** Whatever the tasks do and in whatever order they complete, the pool
    returns one outcome per task, at the task's index. *)
Lemma run_tasks_in_parallel_spec c prompts order st :
  order ≡ₚ seq 0 (length prompts) →
  ∃ parallel_outputs st',
    run_tasks_in_parallel (run_single args) (map (λ p, (p, c)) prompts) order st
      = (Ok parallel_outputs, st') ∧
    length parallel_outputs = length prompts ∧
    (∀ i o, parallel_outputs !! i = Some o →
            ∃ p, prompts !! i = Some p ∧ captured args c p o) ∧
    stdout st' = stdout st ∧ cache st' = cache st ∧ disk st' = disk st ∧
    (Forall (λ p, bound c p = true) prompts →
       calls st' ≡ₚ calls st ++ misses args c prompts).
Proof.
  intros Hperm.
  destruct (run_pool_spec c prompts order ∅ st)
    as (done & st' & Hrun & Ho & Hc & Hd & Hcalls & Hcov & _ & Hsrc).
  destruct (reassemble_spec done (length prompts)) as [Hlen Hlk].
  { intros i Hi. apply Hcov; [done|]. rewrite Hperm. apply elem_of_seq. lia. }
  eexists _, st'. unfold run_tasks_in_parallel, bind. rewrite Hrun.
  rewrite length_map. split; [done|]. split; [done|].
  split; [|repeat split; try done].
  - intros i o Hi.
    assert (i < length prompts)%nat as Hlt.
    { rewrite <- Hlen. by eapply lookup_lt_Some. }
    rewrite (Hlk i Hlt) in Hi.
    destruct (Hsrc i o Hi) as [Hempty|Hcap]; [|done].
    by rewrite lookup_empty in Hempty.
  - intros Hb. rewrite (Hcalls Hb). apply Permutation_app_head.
    rewrite <- flat_map_missed_at. by apply Permutation_flat_map.
Qed.

Lemma captured_ok c p o :
  task_ok args c p → captured args c p o →
  ∃ v, o = Success v ∧ result_for args c p v.
Proof.
  intros Hok (sa & sb & Hcap). unfold capture in Hcap.
  destruct (run_single_ok c p sa Hok) as (v & st' & Hrun & Hv).
  rewrite Hrun in Hcap. inversion Hcap; subst. by exists v.
Qed.

Lemma successes_list (R : prompt → pyval → Prop) prompts (l : list Outcome) :
  length l = length prompts →
  (∀ i o, l !! i = Some o →
          ∃ p, prompts !! i = Some p ∧ ∃ v, o = Success v ∧ R p v) →
  ∃ outputs, l = Success <$> outputs ∧ Forall2 R prompts outputs.
Proof.
  revert prompts. induction l as [|o l IH]; intros [|p prompts] Hlen Hl;
    simpl in Hlen; try lia.
  - by exists [].
  - destruct (Hl 0%nat o eq_refl) as (p' & Hp' & v & -> & Hv).
    inversion Hp'; subst p'.
    destruct (IH prompts) as (outputs & -> & HF); [lia| |].
    { intros i o' Hi. apply (Hl (S i) o' Hi). }
    exists (v :: outputs). split; [done|]. by constructor.
Qed.

Lemma run_tasks_in_parallel_ok c prompts order st :
  Forall (task_ok args c) prompts →
  order ≡ₚ seq 0 (length prompts) →
  ∃ outputs st',
    run_tasks_in_parallel (run_single args) (map (λ p, (p, c)) prompts) order st
      = (Ok (Success <$> outputs), st') ∧
    Forall2 (result_for args c) prompts outputs ∧
    stdout st' = stdout st ∧ cache st' = cache st ∧ disk st' = disk st ∧
    calls st' ≡ₚ calls st ++ misses args c prompts.
Proof.
  intros Hall Hperm.
  destruct (run_tasks_in_parallel_spec c prompts order st Hperm)
    as (po & st' & Hrun & Hlen & Hsrc & Ho & Hc & Hd & Hcalls).
  destruct (successes_list (result_for args c) prompts po Hlen)
    as (outputs & -> & HF).
  { intros i o Hi. destruct (Hsrc i o Hi) as (p & Hp & Hcap).
    exists p. split; [done|]. apply captured_ok; [|done].
    exact (Forall_lookup_1 _ _ _ _ Hall Hp). }
  exists outputs, st'. repeat split; try done.
  apply Hcalls. eapply Forall_impl; [exact Hall|]. apply task_ok_bound.
Qed.

Lemma collect_successes outputs acc st :
  collect args (Success <$> outputs) acc st = (Ok (acc ++ outputs), st).
Proof.
  revert acc. induction outputs as [|v outputs IH]; intros acc; simpl.
  - by rewrite app_nil_r.
  - rewrite IH. by rewrite <- app_assoc.
Qed.

(** The loop over the outcomes never raises and prints the diagnostic of
    every failure. *)
Lemma collect_spec parallel_outputs acc st :
  ∃ outputs st',
    collect args parallel_outputs acc st = (Ok outputs, st') ∧
    world st' = world st ∧ calls st' = calls st ∧
    cache st' = cache st ∧ disk st' = disk st ∧
    stdout st' = stdout st ++ flat_map failure_lines parallel_outputs.
Proof.
  revert acc st.
  induction parallel_outputs as [|[r|status tb] rest IH]; intros acc st.
  - eexists _, st. simpl. by rewrite app_nil_r.
  - simpl. apply IH.
  - cbn [collect]. unfold bind, print.
    match goal with
    | |- context [collect args rest ?a ?s] =>
        destruct (IH a s) as (outputs & st' & Hc & Hw & Hcalls & Hca & Hd & Hout)
    end.
    exists outputs, st'. rewrite Hc. split; [done|].
    simpl in *. repeat split; try done.
    rewrite Hout. by rewrite <- !app_assoc.
Qed.

Lemma run_tasks_in_parallel_frame c prompts order st r st' :
  run_tasks_in_parallel (run_single args) (map (λ p, (p, c)) prompts) order st = (r, st') →
  (∃ parallel_outputs, r = Ok parallel_outputs) ∧
  stdout st' = stdout st ∧ cache st' = cache st ∧ disk st' = disk st.
Proof.
  destruct (run_pool_spec c prompts order ∅ st)
    as (done & st1 & Hrun & Ho & Hc & Hd & _).
  unfold run_tasks_in_parallel, bind. rewrite Hrun. unfold ret.
  intros Heq; inversion Heq; subst. split; [by eexists|done].
Qed.

(** ** The cache-writing loop *)

Lemma written_cons cm kv pairs :
  written cm (kv :: pairs) = written (<[kv.1 := kv.2]> cm) pairs.
Proof. done. Qed.

Lemma written_snoc cm pairs kv :
  written cm (pairs ++ [kv]) = <[kv.1 := kv.2]> (written cm pairs).
Proof. unfold written. by rewrite foldl_app. Qed.

Lemma written_lookup_notin cm pairs k :
  (∀ kv, kv ∈ pairs → kv.1 ≠ k) → written cm pairs !! k = cm !! k.
Proof.
  induction pairs as [|kv pairs IH] using rev_ind; intros Hk; [done|].
  rewrite written_snoc, lookup_insert_ne.
  - apply IH. intros kv' Hin. apply Hk. apply elem_of_app. by left.
  - apply Hk. apply elem_of_app. right. apply list_elem_of_here.
Qed.

(** Of several assignments to one key, the last one stays. *)
Lemma written_lookup_last cm pairs i k v :
  pairs !! i = Some (k, v) →
  (∀ j kv, (i < j)%nat → pairs !! j = Some kv → kv.1 ≠ k) →
  written cm pairs !! k = Some v.
Proof.
  revert cm i. induction pairs as [|kv pairs IH]; intros cm [|i] Hi Hlater;
    try done; rewrite written_cons.
  - simpl in Hi. inversion Hi; subst kv. simpl.
    rewrite written_lookup_notin; [apply lookup_insert_eq|].
    intros kv' Hin. apply list_elem_of_lookup_1 in Hin as [j Hj].
    apply (Hlater (S j) kv'); [lia|done].
  - apply (IH _ i); [done|].
    intros j kv' Hlt Hj. apply (Hlater (S j) kv'); [lia|done].
Qed.

Lemma last_occurrence {A B} `{EqDecision B} (f : A → B) (l : list A) i x :
  l !! i = Some x →
  ∃ j y, (i ≤ j)%nat ∧ l !! j = Some y ∧ f y = f x ∧
         ∀ j' y', (j < j')%nat → l !! j' = Some y' → f y' ≠ f x.
Proof.
  revert i. induction l as [|z l IH] using rev_ind; intros i Hi; [done|].
  destruct (decide (f z = f x)) as [Hz|Hz].
  - exists (length l), z. split; [|split; [|split]].
    + apply lookup_lt_Some in Hi. rewrite length_app in Hi. simpl in Hi. lia.
    + by rewrite list_lookup_middle.
    + done.
    + intros j' y' Hlt Hj'. apply lookup_lt_Some in Hj'.
      rewrite length_app in Hj'. simpl in Hj'. lia.
  - assert (i < length l)%nat as Hlt.
    { destruct (decide (i < length l)%nat) as [|Hge]; [done|].
      pose proof (lookup_lt_Some _ _ _ Hi) as Hb.
      rewrite length_app in Hb. simpl in Hb.
      assert (i = length l) as -> by lia.
      rewrite list_lookup_middle in Hi by done. by inversion Hi; subst. }
    rewrite lookup_app_l in Hi by done.
    destruct (IH i Hi) as (j & y & Hij & Hj & Hfy & Hlast).
    exists j, y. split; [done|]. split; [by apply lookup_app_l_Some|].
    split; [done|]. intros j' y' Hjj' Hj'.
    destruct (decide (j' < length l)%nat) as [Hin|Hout].
    + rewrite lookup_app_l in Hj' by done. by eapply Hlast.
    + pose proof (lookup_lt_Some _ _ _ Hj') as Hb.
      rewrite length_app in Hb. simpl in Hb.
      assert (j' = length l) as -> by lia.
      rewrite list_lookup_middle in Hj' by done. by inversion Hj'; subst.
Qed.

Lemma keyed_lookup prompts outputs i :
  Forall (λ p, is_list p = true) prompts →
  keyed prompts outputs !! i =
    match prompts !! i, outputs !! i with
    | Some p, Some o => (λ k, (k, o)) <$> key_of p
    | _, _ => None
    end.
Proof.
  intros Hall. revert outputs i.
  induction Hall as [|p prompts Hp _ IH]; intros outputs i; [done|].
  destruct outputs as [|o outputs].
  - unfold keyed. simpl. by destruct ((p :: prompts) !! i).
  - destruct p as [text|msgs]; [done|].
    change (keyed (PList msgs :: prompts) (o :: outputs))
      with ((json_dumps msgs, o) :: keyed prompts outputs).
    destruct i as [|i]; [done|]. simpl. apply IH.
Qed.

Lemma store_outputs_lists prompts outputs pc st cm :
  Forall (λ p, is_list p = true) prompts →
  cache st = Some cm →
  store_outputs (zip prompts outputs) pc st =
    (Ok tt, mkState (world st) (calls st) (stdout st)
                    (Some (written cm (keyed prompts outputs))) (disk st)).
Proof.
  intros Hall. revert outputs pc st cm.
  induction Hall as [|p prompts Hp _ IH]; intros outputs pc st cm Hc.
  - destruct st; simpl in *; by subst.
  - destruct outputs as [|o outputs].
    + destruct st; simpl in *; by subst.
    + destruct p as [text|msgs]; [done|].
      cbn [zip zip_with store_outputs]. unfold bind, cache_store.
      rewrite (IH outputs _ _ (<[json_dumps msgs := o]> cm)); [done|].
      simpl. by rewrite Hc.
Qed.

(** ** [run_batch], by phases *)

Lemma run_batch_unfold prompts order st :
  run_batch args prompts order st =
    match execute args prompts order st with
    | (Ok outputs, st1) =>
        match cache st1 with
        | Some _ =>
            match store_outputs (zip prompts outputs) None st1 with
            | (Ok _, st2) => (Ok outputs, st2)
            | (Raise e, st2) => (Raise e, st2)
            end
        | None => (Ok outputs, st1)
        end
    | (Raise e, st1) => (Raise e, st1)
    end.
Proof.
  unfold run_batch, execute. unfold bind at 1.
  match goal with
  | |- context [match ?m st with _ => _ end] =>
      destruct (m st) as [[outputs|e] st1]; [|done]
  end.
  unfold bind, ret. destruct (cache st1); [|done].
  by destruct (store_outputs _ _ st1) as [[[]|e] st2].
Qed.

Lemma execute_sequential prompts order st :
  multiprocess args ≤ 1 →
  execute args prompts order st =
    mapM (run_single args) (map (λ p, (p, cache st)) prompts) st.
Proof. intros Hmp. unfold execute. by rewrite (proj2 (Z.ltb_ge _ _) Hmp). Qed.

Lemma execute_parallel prompts order st :
  1 < multiprocess args →
  execute args prompts order st =
    match run_tasks_in_parallel (run_single args)
            (map (λ p, (p, cache st)) prompts) order st with
    | (Ok parallel_outputs, st1) => collect args parallel_outputs [] st1
    | (Raise e, st1) => (Raise e, st1)
    end.
Proof. intros Hmp. unfold execute. by rewrite (proj2 (Z.ltb_lt _ _) Hmp). Qed.

(** The first phase does not touch the cache or the cache file. *)
Lemma execute_frame prompts order st r st1 :
  execute args prompts order st = (r, st1) →
  cache st1 = cache st ∧ disk st1 = disk st.
Proof.
  destruct (Z.lt_ge_cases 1 (multiprocess args)) as [Hmp|Hmp].
  - rewrite execute_parallel by done.
    destruct (run_tasks_in_parallel _ _ _ st) as [r0 st0] eqn:Hpool.
    apply run_tasks_in_parallel_frame in Hpool as ([po ->] & _ & Hc & Hd).
    destruct (collect_spec po [] st0) as (outputs & st' & Hcol & _ & _ & Hc' & Hd' & _).
    rewrite Hcol. intros Heq; inversion Heq; subst. split; congruence.
  - rewrite execute_sequential by done.
    intros Hseq. by apply mapM_run_single_frame in Hseq as (_ & ? & ?).
Qed.

(** When no task can fail, the first phase returns the results of the
    tasks, in the order of the tasks. *)
Lemma execute_ok prompts order st :
  Forall (task_ok args (cache st)) prompts →
  (1 < multiprocess args → order ≡ₚ seq 0 (length prompts)) →
  ∃ outputs st1,
    execute args prompts order st = (Ok outputs, st1) ∧
    Forall2 (result_for args (cache st)) prompts outputs ∧
    calls st1 ≡ₚ calls st ++ misses args (cache st) prompts ∧
    stdout st1 = stdout st.
Proof.
  intros Hall Hperm.
  destruct (Z.lt_ge_cases 1 (multiprocess args)) as [Hmp|Hmp].
  - rewrite execute_parallel by done.
    destruct (run_tasks_in_parallel_ok (cache st) prompts order st Hall (Hperm Hmp))
      as (outputs & st1 & Hrun & HF & Ho & _ & _ & Hcalls).
    exists outputs, st1. rewrite Hrun, collect_successes. by repeat split.
  - rewrite execute_sequential by done.
    destruct (mapM_run_single_ok (cache st) prompts st Hall)
      as (outputs & st1 & Hrun & HF & Hcalls).
    exists outputs, st1. pose proof Hrun as Hfr.
    apply mapM_run_single_frame in Hfr as (Ho & _ & _).
    repeat split; try done. by rewrite Hcalls.
Qed.

(** A sequential batch stops at the first task that raises. *)
Lemma run_batch_sequential_raise pre T post order st outs st1 e st2 :
  multiprocess args ≤ 1 →
  mapM (run_single args) (map (λ p, (p, cache st)) pre) st = (Ok outs, st1) →
  run_single args (T, cache st) st1 = (Raise e, st2) →
  run_batch args (pre ++ T :: post) order st = (Raise e, st2) ∧
  cache st2 = cache st ∧ disk st2 = disk st ∧
  (calls st2 = calls st1 ∨ calls st2 = calls st1 ++ [T]).
Proof.
  intros Hmp Hpre HT. rewrite run_batch_unfold, execute_sequential by done.
  rewrite map_app. cbn [map].
  rewrite (mapM_raise _ _ _ _ _ _ _ _ _ Hpre HT).
  split; [done|]. apply mapM_run_single_frame in Hpre as (_ & Hc1 & Hd1).
  apply run_single_frame in HT as (_ & Hc2 & Hd2 & Hcalls).
  repeat split; [congruence|congruence|done].
Qed.

(** With list prompts, a batch that returns has assigned every pair of
    [zip(prompts, outputs)] to the cache, in order. *)
Lemma run_batch_cache_written prompts order st cm outputs st' :
  cache st = Some cm →
  Forall (λ p, is_list p = true) prompts →
  run_batch args prompts order st = (Ok outputs, st') →
  cache st' = Some (written cm (keyed prompts outputs)) ∧ disk st' = disk st.
Proof.
  intros Hcm Hlists. rewrite run_batch_unfold.
  destruct (execute args prompts order st) as [[outs|e] st1] eqn:Hexec; [|done].
  apply execute_frame in Hexec as [Hc Hd].
  rewrite Hc, Hcm.
  rewrite (store_outputs_lists prompts outs None st1 cm) by congruence.
  intros Heq; inversion Heq; subst. simpl. by rewrite Hd.
Qed.

Lemma task_ok_lists cm prompts :
  Forall (task_ok args (Some cm)) prompts → Forall (λ p, is_list p = true) prompts.
Proof.
  intros Hall. eapply Forall_impl; [exact Hall|].
  intros p Hp. by apply task_ok_bound in Hp.
Qed.

(** A batch in which no task can fail returns the results of its tasks,
    one per task and in their order, has invoked the worker once for every
    task that the cache did not serve, and has written the cache. *)
Lemma run_batch_ok prompts order st :
  Forall (task_ok args (cache st)) prompts →
  (1 < multiprocess args → order ≡ₚ seq 0 (length prompts)) →
  ∃ outputs st',
    run_batch args prompts order st = (Ok outputs, st') ∧
    Forall2 (result_for args (cache st)) prompts outputs ∧
    calls st' ≡ₚ calls st ++ misses args (cache st) prompts ∧
    stdout st' = stdout st ∧ disk st' = disk st ∧
    cache st' = (λ cm, written cm (keyed prompts outputs)) <$> cache st.
Proof.
  intros Hall Hperm.
  destruct (execute_ok prompts order st Hall Hperm)
    as (outputs & st1 & Hexec & HF & Hcalls & Ho).
  pose proof (execute_frame _ _ _ _ _ Hexec) as [Hc Hd].
  rewrite run_batch_unfold, Hexec, Hc.
  destruct (cache st) as [cm|] eqn:Hcm.
  - rewrite (store_outputs_lists prompts outputs None st1 cm);
      [|by eapply task_ok_lists|congruence].
    eexists _, _. split; [done|]. simpl. split_and!; done.
  - exists outputs, st1. split_and!; done.
Qed.

(** On the parallel path [run_batch] returns whatever the tasks do, as
    long as the final loop finds [prompt_cache] bound: every task has been
    run and every failure has been printed. *)
Lemma run_batch_parallel_spec prompts order st :
  1 < multiprocess args →
  order ≡ₚ seq 0 (length prompts) →
  Forall (λ p, bound (cache st) p = true) prompts →
  ∃ parallel_outputs outputs st',
    run_batch args prompts order st = (Ok outputs, st') ∧
    length parallel_outputs = length prompts ∧
    (∀ i o, parallel_outputs !! i = Some o →
            ∃ p, prompts !! i = Some p ∧ captured args (cache st) p o) ∧
    stdout st' = stdout st ++ flat_map failure_lines parallel_outputs ∧
    calls st' ≡ₚ calls st ++ misses args (cache st) prompts.
Proof.
  intros Hmp Hperm Hb.
  destruct (run_tasks_in_parallel_spec (cache st) prompts order st Hperm)
    as (po & st1 & Hrun & Hlen & Hsrc & Ho & Hc & Hd & Hcalls).
  destruct (collect_spec po [] st1)
    as (outputs & st2 & Hcol & _ & Hcalls2 & Hc2 & Hd2 & Ho2).
  rewrite run_batch_unfold, execute_parallel, Hrun, Hcol by done.
  exists po, outputs. rewrite Hc2, Hc.
  destruct (cache st) as [cm|] eqn:Hcm.
  - rewrite (store_outputs_lists prompts outputs None st2 cm);
      [|done|congruence].
    eexists. split; [done|]. simpl.
    split; [done|]. split; [done|].
    split; [congruence|]. rewrite Hcalls2. by apply Hcalls.
  - exists st2. split; [done|]. split; [done|]. split; [done|].
    split; [congruence|]. rewrite Hcalls2. by apply Hcalls.
Qed.

(** ** The single-task invocation *)

(** C5. A normal return of [run_single] carries exactly [n] entries: the
    value is either the cache entry of the prompt, returned after its
    length was compared with [n], or the list the worker returned, of
    length [n].  And when the worker was invoked and returned a list of
    another length, [run_single] raises [AssertionError]. *)
Theorem run_single_returns_n_entries p c st :
  (∀ v st', run_single args (p, c) st = (Ok v, st') →
     py_len v = n args ∧
     ((∃ cm msgs, c = Some cm ∧ p = PList msgs ∧
                  cm !! json_dumps msgs = Some v ∧ st' = st) ∨
      (∃ items, v = VList items ∧ (_run_single p (world st)).1 = inr items ∧
                calls st' = calls st ++ [p]))) ∧
  (∀ items r st', (_run_single p (world st)).1 = inr items →
     Z.of_nat (length items) ≠ n args →
     run_single args (p, c) st = (r, st') →
     calls st' = calls st ++ [p] →
     r = Raise AssertionError).
Proof.
  split.
  - intros v st'. rewrite run_single_eq.
    destruct (cache_get args c p) as [v0|] eqn:Hget.
    + intros Heq; inversion Heq; subst.
      apply cache_get_Some in Hget as (cm & msgs & -> & -> & Hk & Hn).
      split; [done|]. left. by exists cm, msgs.
    + destruct (bound c p); [|done].
      rewrite invoke_eq.
      destruct (_run_single p (world st)) as [[tb|items] w'] eqn:Hw; [done|].
      destruct (Z.eqb_spec (Z.of_nat (length items)) (n args)) as [Hn|]; [|done].
      intros Heq; inversion Heq; subst. split; [done|].
      right. exists items. simpl. done.
  - intros items r st' Hw Hlen. rewrite run_single_eq.
    destruct (cache_get args c p) as [v0|].
    + intros Heq; inversion Heq; subst. intros Hc.
      symmetry in Hc. by apply app_singleton_neq in Hc.
    + destruct (bound c p).
      * rewrite invoke_eq.
        destruct (_run_single p (world st)) as [[tb|items'] w']; simpl in Hw; [done|].
        inversion Hw; subst.
        destruct (Z.eqb_spec (Z.of_nat (length items)) (n args)); [done|].
        intros Heq; by inversion Heq.
      * intros Heq; inversion Heq; subst. intros Hc.
        symmetry in Hc. by apply app_singleton_neq in Hc.
Qed.


(** C9. [prompt_cache] is bound only for a list prompt.  When the prompt
    is a list or the cache is [None], [run_single] never raises the
    unbound-variable error: it returns the cache entry (a hit) or goes on
    to the worker call.  For a string prompt with a cache, it raises
    [UnboundLocalError] and the state, with its record of worker calls,
    is untouched. *)
Theorem prompt_cache_bound_only_for_lists p c st :
  ((is_list p = true ∨ c = None) →
     (∀ name st', run_single args (p, c) st ≠ (Raise (UnboundLocalError name), st')) ∧
     ((∃ cm msgs v, c = Some cm ∧ p = PList msgs ∧
                    cm !! json_dumps msgs = Some v ∧ py_len v = n args ∧
                    run_single args (p, c) st = (Ok v, st)) ∨
      run_single args (p, c) st = invoke args p st)) ∧
  (∀ text cm, p = PStr text → c = Some cm →
     run_single args (p, c) st = (Raise (UnboundLocalError "prompt_cache"), st)).
Proof.
  split.
  - intros Hb.
    assert (bound c p = true) as Hbound.
    { destruct Hb as [Hl| ->]; [|done]. unfold bound. by destruct c. }
    rewrite run_single_eq, Hbound.
    destruct (cache_get args c p) as [v|] eqn:Hget.
    + split; [done|]. left.
      apply cache_get_Some in Hget as (cm & msgs & -> & -> & Hk & Hn).
      by exists cm, msgs, v.
    + split; [|by right].
      intros name st'. rewrite invoke_eq.
      destruct (_run_single p (world st)) as [[tb|items] w']; [done|].
      by destruct (_ =? _).
  - by intros text cm -> ->.
Qed.

(** ** Batches *)

(** C1 (amended). For every list of tasks none of which fails (each one is
    served from the cache or answered by the worker with [n] strings),
    [run_batch] returns exactly one result per task, and the element at
    index [i] is the result for the task at index [i]: its cache entry or
    what the worker returned for it.  This holds on the sequential path
    and on the parallel path under every completion order. *)
Theorem run_batch_one_result_per_task prompts order st :
  Forall (task_ok args (cache st)) prompts →
  (1 < multiprocess args → order ≡ₚ seq 0 (length prompts)) →
  ∃ outputs st',
    run_batch args prompts order st = (Ok outputs, st') ∧
    length outputs = length prompts ∧
    ∀ i p, prompts !! i = Some p →
           ∃ v, outputs !! i = Some v ∧ result_for args (cache st) p v.
Proof.
  intros Hall Hperm.
  destruct (run_batch_ok prompts order st Hall Hperm)
    as (outputs & st' & Hrun & HF & _).
  exists outputs, st'. split; [done|].
  split; [symmetry; by eapply Forall2_length|].
  intros i p Hp.
  destruct (Forall2_lookup_l _ _ _ _ _ HF Hp) as (v & Hv & Hr). by exists v.
Qed.

(** C3 (amended). On the sequential path, when the invocation for a task
    T fails, [run_batch] raises at T, and so does [run_main] before it
    reaches [save_cache]: neither the cache nor the cache file has
    changed, so no entry has been added for T. *)
Theorem sequential_failure_leaves_cache {Problem : Type}
    (format_prompt : Problem → prompt)
    (format_repair_prompt : string → string → bool → string → prompt)
    (benchmark : list Problem) (check_metadata : list check)
    (pre : list prompt) (T : prompt) (post : list prompt)
    order st outs st1 e st2 :
  multiprocess args ≤ 1 →
  scenario args = other_scenario →
  map format_prompt benchmark = pre ++ T :: post →
  mapM (run_single args) (map (λ p, (p, cache st)) pre) st = (Ok outs, st1) →
  run_single args (T, cache st) st1 = (Raise e, st2) →
  run_batch args (pre ++ T :: post) order st = (Raise e, st2) ∧
  run_main args format_prompt format_repair_prompt benchmark check_metadata order st
    = (Raise e, st2) ∧
  cache st2 = cache st ∧ disk st2 = disk st.
Proof.
  intros Hmp Hsc Hfmt Hpre HT.
  destruct (run_batch_sequential_raise pre T post order st outs st1 e st2 Hmp Hpre HT)
    as (Hrun & Hc & Hd & _).
  split; [done|]. split; [|done].
  unfold run_main. rewrite Hsc, Hfmt. unfold bind. by rewrite Hrun.
Qed.

(** C7 (amended). With parallelism above 1, and every prompt a list or
    the cache disabled, no exception raised by a task leaves [run_batch]:
    it returns; every task has been run (the worker has been invoked for
    each task that the cache did not serve); each task's outcome, success
    or captured failure, sits at the task's index, and for every failure
    the three diagnostic lines have been printed.  With parallelism 1 or
    less, the exception of the first failing task leaves [run_batch] and
    no later task is run. *)
Theorem failures_isolated_on_parallel_path prompts order st :
  (1 < multiprocess args →
   order ≡ₚ seq 0 (length prompts) →
   cache st = None ∨ Forall (λ p, is_list p = true) prompts →
   ∃ parallel_outputs outputs st',
     run_batch args prompts order st = (Ok outputs, st') ∧
     length parallel_outputs = length prompts ∧
     (∀ i o, parallel_outputs !! i = Some o →
             ∃ p, prompts !! i = Some p ∧ captured args (cache st) p o) ∧
     calls st' ≡ₚ calls st ++ misses args (cache st) prompts ∧
     stdout st' = stdout st ++ flat_map failure_lines parallel_outputs) ∧
  (multiprocess args ≤ 1 →
   ∀ pre T post outs st1 e st2,
     prompts = pre ++ T :: post →
     mapM (run_single args) (map (λ p, (p, cache st)) pre) st = (Ok outs, st1) →
     run_single args (T, cache st) st1 = (Raise e, st2) →
     run_batch args prompts order st = (Raise e, st2) ∧
     (calls st2 = calls st1 ∨ calls st2 = calls st1 ++ [T])).
Proof.
  split.
  - intros Hmp Hperm Hb.
    destruct (run_batch_parallel_spec prompts order st Hmp Hperm)
      as (po & outputs & st' & Hrun & Hlen & Hsrc & Hout & Hcalls).
    { destruct Hb as [->|Hl]; [by apply Forall_true|].
      eapply Forall_impl; [exact Hl|]. intros p Hp. unfold bound.
      by destruct (cache st). }
    by exists po, outputs, st'.
  - intros Hmp pre T post outs st1 e st2 -> Hpre HT.
    destruct (run_batch_sequential_raise pre T post order st outs st1 e st2 Hmp Hpre HT)
      as (Hrun & _ & _ & Hcalls).
    done.
Qed.

(** C10 (amended). With caching on and list prompts only, a batch that
    returns one output per prompt has stored an entry for every prompt,
    hit or miss, whatever the cache held before: under the serialization
    of a prompt the cache holds the output returned for the last prompt
    of the batch with that serialization, which is the prompt's own output
    when no later prompt serializes to the same key.  A batch in which
    every task succeeds is such a batch. *)
Theorem cache_written_for_every_prompt prompts order st cm :
  cache st = Some cm →
  Forall (λ p, is_list p = true) prompts →
  (∀ outputs st',
     run_batch args prompts order st = (Ok outputs, st') →
     length outputs = length prompts →
     ∃ cm', cache st' = Some cm' ∧
       (∀ i msgs o,
          prompts !! i = Some (PList msgs) → outputs !! i = Some o →
          (∀ k msgs', (i < k)%nat → prompts !! k = Some (PList msgs') →
                      json_dumps msgs' ≠ json_dumps msgs) →
          cm' !! json_dumps msgs = Some o) ∧
       (∀ i msgs,
          prompts !! i = Some (PList msgs) →
          ∃ j msgs' o, (i ≤ j)%nat ∧ prompts !! j = Some (PList msgs') ∧
                       json_dumps msgs' = json_dumps msgs ∧
                       outputs !! j = Some o ∧
                       cm' !! json_dumps msgs = Some o)) ∧
  (Forall (task_ok args (Some cm)) prompts →
   (1 < multiprocess args → order ≡ₚ seq 0 (length prompts)) →
   ∃ outputs st',
     run_batch args prompts order st = (Ok outputs, st') ∧
     Forall2 (result_for args (Some cm)) prompts outputs).
Proof.
  intros Hcm Hlists. split.
  - intros outputs st' Hrun Hlen.
    destruct (run_batch_cache_written prompts order st cm outputs st' Hcm Hlists Hrun)
      as [Hc _].
    eexists. split; [exact Hc|].
    assert (∀ i msgs o,
      prompts !! i = Some (PList msgs) → outputs !! i = Some o →
      (∀ k msgs', (i < k)%nat → prompts !! k = Some (PList msgs') →
                  json_dumps msgs' ≠ json_dumps msgs) →
      written cm (keyed prompts outputs) !! json_dumps msgs = Some o) as Hlast.
    { intros i msgs o Hp Ho Hlater.
      apply (written_lookup_last _ _ i).
      - by rewrite keyed_lookup, Hp, Ho.
      - intros k kv Hik. rewrite keyed_lookup by done.
        destruct (prompts !! k) as [[text|msgs']|] eqn:Hk; try done;
          destruct (outputs !! k); try done.
        simpl. intros Heq; inversion Heq; subst. simpl. by eapply Hlater. }
    split; [exact Hlast|].
    intros i msgs Hp.
    destruct (last_occurrence (key_of) prompts i (PList msgs) Hp)
      as (j & y & Hij & Hj & Hkey & Hlater).
    pose proof (Forall_lookup_1 _ _ _ _ Hlists Hj) as Hy.
    destruct y as [text|msgs']; [done|].
    simpl in Hkey. inversion Hkey as [Hkey'].
    destruct (lookup_lt_is_Some_2 outputs j) as [o Ho].
    { rewrite Hlen. by eapply lookup_lt_Some. }
    exists j, msgs', o. split; [done|]. split; [done|]. split; [done|].
    split; [done|].
    apply (Hlast j); try done.
    intros k msgs'' Hjk Hk Heq.
    apply (Hlater k (PList msgs'') Hjk Hk). simpl. congruence.
  - intros Hall Hperm. rewrite <- Hcm in Hall.
    destruct (run_batch_ok prompts order st Hall Hperm)
      as (outputs & st' & Hrun & HF & _).
    rewrite Hcm in HF. by exists outputs, st'.
Qed.

(** C4 (amended). With caching on, [n = 2], list tasks A, B, A with
    distinct serializations of A and B, an empty cache and a worker that
    answers [["x1", "x2"]] to everything: the first [run_batch] invokes
    the worker 3 times, once per task (the second A is not served from the
    cache, which is only written after all tasks have run), leaves 2
    cache entries and returns three times [["x1", "x2"]]; after
    [save_cache], a runner constructed from the cache file runs the same
    tasks with 0 worker invocations and returns the same output. *)
Theorem duplicate_task_scenario (A B : list message) (w : W) order1 order2 :
  n args = 2 →
  (∀ p w0, (_run_single p w0).1 = inr ["x1"; "x2"]) →
  json_dumps A ≠ json_dumps B →
  (1 < multiprocess args → order1 ≡ₚ seq 0 3 ∧ order2 ≡ₚ seq 0 3) →
  let tasks := [PList A; PList B; PList A] in
  let x := VList ["x1"; "x2"] in
  ∃ st1,
    run_batch args tasks order1 (BaseRunner_init true w None) = (Ok [x; x; x], st1) ∧
    length (calls st1) = 3%nat ∧
    size <$> cache st1 = Some 2%nat ∧
    ∀ w', ∃ st2,
      run_batch args tasks order2 (BaseRunner_init true w' (disk (save_cache st1).2))
        = (Ok [x; x; x], st2) ∧
      calls st2 = [].
Proof.
  intros Hn Hworker HAB Hperm tasks x.
  assert (∀ p, succeeds args p) as Hsucc.
  { intros p w0. specialize (Hworker p w0).
    destruct (_run_single p w0) as [r w1]. simpl in Hworker. subst r.
    exists ["x1"; "x2"], w1. split; [done|]. by rewrite Hn. }
  assert (∀ c p v, result_for args c p v → cache_get args c p = None → v = x) as Hfresh.
  { intros c p v [Hhit|(_ & w0 & w1 & items & Hw & -> & _)] Hmiss; [congruence|].
    specialize (Hworker p w0). rewrite Hw in Hworker. simpl in Hworker.
    by inversion Hworker. }
  set (st0 := BaseRunner_init true w None).
  assert (∀ p, p ∈ tasks → cache_get args (cache st0) p = None) as Hmiss.
  { intros p Hp. unfold tasks in Hp.
    repeat (apply elem_of_cons in Hp as [->|Hp]); try by apply elem_of_nil in Hp.
    all: simpl; by rewrite lookup_empty. }
  destruct (run_batch_ok tasks order1 st0) as (outputs & st1 & Hrun & HF & Hcalls & _ & _ & Hc).
  { apply Forall_forall. intros p Hp. right. split; [|done].
    unfold tasks in Hp.
    repeat (apply elem_of_cons in Hp as [->|Hp]); try by apply elem_of_nil in Hp.
    all: done. }
  { intros Hmp. by apply Hperm. }
  assert (outputs = [x; x; x]) as ->.
  { unfold tasks in HF.
    apply Forall2_cons_inv_l in HF as (v1 & l1 & H1 & HF & ->).
    apply Forall2_cons_inv_l in HF as (v2 & l2 & H2 & HF & ->).
    apply Forall2_cons_inv_l in HF as (v3 & l3 & H3 & HF & ->).
    apply Forall2_nil_inv_l in HF as ->.
    assert (PList A ∈ tasks) as HA by apply list_elem_of_here.
    assert (PList B ∈ tasks) as HB
      by apply list_elem_of_further, list_elem_of_here.
    by rewrite (Hfresh _ _ _ H1 (Hmiss _ HA)), (Hfresh _ _ _ H2 (Hmiss _ HB)),
      (Hfresh _ _ _ H3 (Hmiss _ HA)). }
  set (kA := json_dumps A) in *. set (kB := json_dumps B) in *.
  assert (cache st1 = Some (<[kA := x]> (<[kB := x]> ∅))) as Hc1.
  { rewrite Hc. simpl. f_equal. unfold written, keyed. simpl.
    fold kA kB. apply map_eq. intros k.
    rewrite !lookup_insert. repeat case_decide; congruence. }
  exists st1. split; [done|]. split; [|split].
  - apply Permutation_length in Hcalls. rewrite Hcalls.
    by rewrite (misses_all _ _ Hmiss).
  - rewrite Hc1. simpl. f_equal.
    rewrite map_size_insert_None.
    + rewrite map_size_insert_None by apply lookup_empty.
      by rewrite map_size_empty.
    + rewrite lookup_insert_ne by done. apply lookup_empty.
  - intros w'. unfold save_cache. rewrite Hc1. simpl.
    set (cm1 := <[kA := x]> (<[kB := x]> ∅)).
    set (st1' := BaseRunner_init true w' (Some cm1)).
    assert (∀ p, p ∈ tasks → cache_get args (cache st1') p = Some x) as Hhit.
    { intros p Hp. unfold tasks in Hp.
      repeat (apply elem_of_cons in Hp as [->|Hp]); try by apply elem_of_nil in Hp.
      all: simpl; fold kA kB; unfold cm1.
      - rewrite lookup_insert_eq. simpl. by rewrite Hn.
      - rewrite lookup_insert_ne, lookup_insert_eq by done. simpl. by rewrite Hn.
      - rewrite lookup_insert_eq. simpl. by rewrite Hn. }
    destruct (run_batch_ok tasks order2 st1')
      as (outputs & st2 & Hrun2 & HF2 & Hcalls2 & _).
    { apply Forall_forall. intros p Hp. left. rewrite (Hhit p Hp). by eexists. }
    { intros Hmp. by apply Hperm. }
    exists st2. split.
    + rewrite Hrun2. f_equal. f_equal.
      unfold tasks in HF2.
      apply Forall2_cons_inv_l in HF2 as (v1 & l1 & H1 & HF2 & ->).
      apply Forall2_cons_inv_l in HF2 as (v2 & l2 & H2 & HF2 & ->).
      apply Forall2_cons_inv_l in HF2 as (v3 & l3 & H3 & HF2 & ->).
      apply Forall2_nil_inv_l in HF2 as ->.
      assert (∀ p v, p ∈ tasks → result_for args (cache st1') p v → v = x) as Hv.
      { intros p v Hp [Hh|[Hm _]]; rewrite (Hhit p Hp) in *; congruence. }
      assert (PList A ∈ tasks) as HA by apply list_elem_of_here.
      assert (PList B ∈ tasks) as HB
        by apply list_elem_of_further, list_elem_of_here.
      by rewrite (Hv _ _ HA H1), (Hv _ _ HB H2), (Hv _ _ HA H3).
    + apply Permutation_nil. rewrite Hcalls2.
      rewrite misses_none; [done|].
      intros p Hp. rewrite (Hhit p Hp). by eexists.
Qed.

(** ** Self-repair *)

Lemma mapM_Ok_inv {A B} (f : A → M (W:=W) B) (R : A → B → Prop)
    (g : A → list prompt) (l : list A) st ys st' :
  (∀ x s y s', x ∈ l → f x s = (Ok y, s') → R x y ∧ calls s' = calls s ++ g x) →
  mapM f l st = (Ok ys, st') →
  Forall2 R l ys ∧ calls st' = calls st ++ flat_map g l.
Proof.
  revert st ys. induction l as [|x l IH]; intros st ys Hstep.
  - intros Heq; inversion Heq; subst. simpl. by rewrite app_nil_r.
  - rewrite mapM_cons.
    destruct (f x st) as [[y|e] s1] eqn:Hx; [|done].
    destruct (mapM f l s1) as [[ys'|e] s2] eqn:Hl; [|done].
    intros Heq; inversion Heq; subst.
    destruct (Hstep x st y s1 (list_elem_of_here _ _) Hx) as [HR Hc].
    destruct (IH s1 ys') as [HF Hc']; [|done|].
    { intros x' s y' s' Hin. apply Hstep. by apply list_elem_of_further. }
    split; [by constructor|]. simpl. by rewrite Hc', Hc, <- app_assoc.
Qed.

Lemma mapM_total {A B} (f : A → M (W:=W) B) (l : list A) st :
  (∀ x s, x ∈ l → ∃ y s', f x s = (Ok y, s')) →
  ∃ ys st', mapM f l st = (Ok ys, st').
Proof.
  revert st. induction l as [|x l IH]; intros st Hstep.
  - by exists [], st.
  - destruct (Hstep x st (list_elem_of_here _ _)) as (y & s1 & Hx).
    destruct (IH s1) as (ys & s2 & Hl).
    { intros x' s Hin. apply Hstep. by apply list_elem_of_further. }
    exists (y :: ys), s2. by rewrite mapM_cons, Hx, Hl.
Qed.

Lemma store_blind_ret {A} (a : A) : store_blind (ret (W:=W) a).
Proof. done. Qed.

Lemma store_blind_raise {A} e : store_blind (raise (W:=W) (A:=A) e).
Proof. done. Qed.

Lemma store_blind_bind {A B} (m : M (W:=W) A) (k : A → M (W:=W) B) :
  store_blind m → (∀ a, store_blind (k a)) → store_blind (bind m k).
Proof.
  intros Hm Hk c d st. unfold bind. rewrite Hm.
  destruct (m st) as [[a|e] s1]; simpl; [|done]. apply Hk.
Qed.

Lemma store_blind_index {A} (l : list A) i : store_blind (index (W:=W) l i).
Proof. unfold index. by destruct (l !! i). Qed.

Lemma store_blind_call_method p : store_blind (call_method p).
Proof.
  intros c d st. unfold call_method. simpl.
  by destruct (_run_single p (world st)) as [[tb|items] w'].
Qed.

Lemma store_blind_mapM {A B} (f : A → M (W:=W) B) (l : list A) :
  (∀ x, store_blind (f x)) → store_blind (mapM f l).
Proof.
  intros Hf. induction l as [|x l IH]; [done|].
  cbn [mapM]. apply store_blind_bind; [apply Hf|].
  intros y. apply store_blind_bind; [apply IH|]. intros ys. apply store_blind_ret.
Qed.

Lemma with_store_id st : with_store (cache st) (disk st) st = st.
Proof. by destruct st. Qed.

(** A store-blind computation hands the cache and the file back as it
    found them. *)
Lemma store_blind_frame {A} (m : M (W:=W) A) st :
  store_blind m → cache (m st).2 = cache st ∧ disk (m st).2 = disk st.
Proof.
  intros Hm. specialize (Hm (cache st) (disk st) st).
  rewrite with_store_id in Hm. destruct (m st) as [r st']. simpl in *.
  inversion Hm as [Hst]. by rewrite Hst.
Qed.

Section repair.
Context {Problem : Type}.
Variable format_prompt : Problem → prompt.
Variable format_repair_prompt : string → string → bool → string → prompt.

Lemma repair_attempt_eq chk i st :
  repair_attempt format_repair_prompt chk i st =
    match attempt_prompt format_repair_prompt chk i with
    | None => (Raise IndexError, st)
    | Some p =>
        if is_empty_str p || negb (is_list p) then
          match output_list chk !! i with
          | Some v => (Ok v, st)
          | None => (Raise IndexError, st)
          end
        else
          match call_method p st with
          | (Ok items, st') => (Ok (VList items), st')
          | (Raise e, st') => (Raise e, st')
          end
    end.
Proof.
  unfold repair_attempt, attempt_prompt, index, bind, ret, raise.
  destruct (code_list chk !! i) as [code|]; simpl; [|done].
  destruct (graded_list chk !! i) as [graded|]; simpl; [|done].
  destruct (metadata chk !! i) as [meta|]; simpl; [|done].
  destruct (is_empty_str _ || negb (is_list _)); [|done].
  by destruct (output_list chk !! i).
Qed.

Lemma store_blind_repair_attempt chk i :
  store_blind (repair_attempt format_repair_prompt chk i).
Proof.
  unfold repair_attempt.
  repeat (apply store_blind_bind; [apply store_blind_index|]; intros ?).
  destruct (is_empty_str _ || negb (is_list _)); [apply store_blind_index|].
  apply store_blind_bind; [apply store_blind_call_method|].
  intros items. apply store_blind_ret.
Qed.

Lemma repair_attempt_Ok chk i st v st' :
  repair_attempt format_repair_prompt chk i st = (Ok v, st') →
  repaired format_repair_prompt chk i v ∧
  calls st' = calls st ++ attempt_calls format_repair_prompt chk i.
Proof.
  rewrite repair_attempt_eq. unfold repaired, attempt_calls.
  destruct (attempt_prompt format_repair_prompt chk i) as [p|]; [|done].
  destruct (is_empty_str p || negb (is_list p)) eqn:Hreuse.
  - destruct (output_list chk !! i) as [v0|] eqn:Hout; [|done].
    intros Heq; inversion Heq; subst. rewrite app_nil_r. split; [|done].
    exists p. by rewrite Hreuse.
  - unfold call_method.
    destruct (_run_single p (world st)) as [[tb|items] w'] eqn:Hw; [done|].
    intros Heq; inversion Heq; subst. simpl. split; [|done].
    exists p. rewrite Hreuse. split; [done|]. by exists items, (world st), w'.
Qed.

Lemma repair_check_Ok chk st out st' :
  repair_check format_repair_prompt chk st = (Ok out, st') →
  (length out = length (code_list chk) ∧
   ∀ i v, out !! i = Some v → repaired format_repair_prompt chk i v) ∧
  calls st' = calls st ++ check_calls format_repair_prompt chk.
Proof.
  unfold repair_check. intros Hrun.
  apply (mapM_Ok_inv _ (repaired format_repair_prompt chk)
           (attempt_calls format_repair_prompt chk)) in Hrun as [HF Hcalls].
  - split; [|done]. split.
    + apply Forall2_length in HF. by rewrite length_seq in HF.
    + intros i v Hv.
      destruct (Forall2_lookup_r _ _ _ _ _ HF Hv) as (i' & Hi' & HR).
      apply lookup_seq in Hi' as [-> _]. done.
  - intros i s v s' _. apply repair_attempt_Ok.
Qed.

(** C8. In self-repair mode [run_main] neither reads nor writes the
    cache and the cache file: it runs alike whatever they hold and
    leaves them as they were.  When it returns, there is one output
    list per record and in it one output per prior attempt: the stored
    output when the repair prompt is the empty string or not a list, and
    otherwise the list the worker returned for that prompt; the worker
    has been invoked on exactly those prompts, in the order of the
    records and of their attempts.  It does return when the lists of
    every record are aligned and the worker does not raise. *)
Theorem self_repair_replays_attempts (benchmark : list Problem)
    (check_metadata : list check) (order : list nat) st :
  scenario args = selfrepair →
  let run := run_main args format_prompt format_repair_prompt
               benchmark check_metadata order in
  (cache (run st).2 = cache st ∧ disk (run st).2 = disk st ∧
   ∀ c d, run (with_store c d st) = ((run st).1, with_store c d (run st).2)) ∧
  (∀ mo, (run st).1 = Ok mo →
     ∃ outputs, mo = Repaired outputs ∧
       length outputs = length check_metadata ∧
       calls (run st).2 =
         calls st ++ flat_map (check_calls format_repair_prompt) check_metadata ∧
       ∀ j chk out, check_metadata !! j = Some chk → outputs !! j = Some out →
         length out = length (code_list chk) ∧
         ∀ i v, out !! i = Some v →
           ∃ p, attempt_prompt format_repair_prompt chk i = Some p ∧
             if is_empty_str p || negb (is_list p)
             then output_list chk !! i = Some v
             else ∃ items w w', _run_single p w = (inr items, w') ∧
                                v = VList items) ∧
  (Forall aligned check_metadata →
   (∀ p w, ∃ items w', _run_single p w = (inr items, w')) →
   ∃ outputs, (run st).1 = Ok (Repaired outputs)).
Proof.
  intros Hsc run.
  assert (store_blind run) as Hblind.
  { unfold run, run_main. rewrite Hsc.
    apply store_blind_bind; [|intros; apply store_blind_ret].
    apply store_blind_mapM. intros chk. apply store_blind_mapM.
    intros i. apply store_blind_repair_attempt. }
  assert (run st =
    match mapM (repair_check format_repair_prompt) check_metadata st with
    | (Ok outputs, st') => (Ok (Repaired outputs), st')
    | (Raise e, st') => (Raise e, st')
    end) as Hrun_eq.
  { unfold run, run_main. rewrite Hsc. unfold bind, ret.
    by destruct (mapM _ _ st) as [[outputs|e] st']. }
  split; [|split].
  - destruct (store_blind_frame run st Hblind) as [Hc Hd].
    split; [done|]. split; [done|]. intros c d. apply Hblind.
  - intros mo. rewrite Hrun_eq.
    destruct (mapM (repair_check format_repair_prompt) check_metadata st)
      as [[outputs|e] st'] eqn:Hrun; [|done].
    simpl. intros Heq; inversion Heq; subst mo.
    apply (mapM_Ok_inv _
             (λ chk out, length out = length (code_list chk) ∧
                ∀ i v, out !! i = Some v → repaired format_repair_prompt chk i v)
             (check_calls format_repair_prompt)) in Hrun as [HF Hcalls].
    + exists outputs. split; [done|].
      split; [symmetry; by eapply Forall2_length|]. split; [done|].
      intros j chk out Hchk Hout.
      destruct (Forall2_lookup_l _ _ _ _ _ HF Hchk) as (out' & Hout' & Hlen & Hrep).
      rewrite Hout in Hout'. inversion Hout'; subst out'. done.
    + intros chk s out s' _. apply repair_check_Ok.
  - intros Hal Hworker. rewrite Hrun_eq.
    destruct (mapM_total (repair_check format_repair_prompt) check_metadata st)
      as (outputs & st' & Hrun).
    { intros chk s Hchk. unfold repair_check. apply mapM_total.
      intros i s0 Hi. apply elem_of_seq in Hi as [_ Hi]. simpl in Hi.
      destruct (proj1 (Forall_forall _ _) Hal chk Hchk) as (Hg & Hm & Ho).
      rewrite repair_attempt_eq. unfold attempt_prompt.
      destruct (lookup_lt_is_Some_2 (code_list chk) i Hi) as [code ->].
      destruct (lookup_lt_is_Some_2 (graded_list chk) i) as [graded ->]; [lia|].
      destruct (lookup_lt_is_Some_2 (metadata chk) i) as [meta ->]; [lia|].
      destruct (lookup_lt_is_Some_2 (output_list chk) i) as [out ->]; [lia|].
      simpl.
      destruct (is_empty_str _ || negb (is_list _)); [by eexists _, _|].
      unfold call_method.
      match goal with
      | |- context [_run_single ?p ?w] => destruct (Hworker p w) as (items & w' & ->)
      end.
      by eexists _, _. }
    rewrite Hrun. by exists outputs.
Qed.
End repair.

End Proofs.

(** * The engine on concrete batches *)

Section Demo_facts.
Import Demo.

Lemma order_201 : [2; 0; 1]%nat ≡ₚ seq 0 3.
Proof.
  simpl. eapply perm_trans; [apply perm_swap|]. apply perm_skip, perm_swap.
Defined.

Lemma order_120 : [1; 2; 0]%nat ≡ₚ seq 0 3.
Proof.
  simpl. eapply perm_trans; [apply perm_skip, perm_swap|]. apply perm_swap.
Defined.

Lemma steady_succeeds p : succeeds (backend:=steady) args_par p.
Proof. intros w. by exists ["x1"; "x2"], w. Defined.

Lemma steady_task_ok c p :
  bound c p = true → task_ok (backend:=steady) args_par c p.
Proof. intros Hb. right. split; [exact Hb|apply steady_succeeds]. Defined.

(** C5 at work: a backend that answers with two strings, and one that
    answers with a single string when [n] is 2. *)
Lemma run_single_returns_n_entries_witness :
  py_len x1x2 = 2 ∧
  (run_single (backend:=short) args_seq (task_A, None) (fresh false)).1
    = Raise AssertionError.
Proof.
  split.
  - destruct (proj1 (run_single_returns_n_entries (backend:=steady)
                       args_seq task_A None (fresh false))
                x1x2
                (run_single (backend:=steady) args_seq (task_A, None) (fresh false)).2
                eq_refl) as [Hlen _].
    exact Hlen.
  - apply (proj2 (run_single_returns_n_entries (backend:=short)
                    args_seq task_A None (fresh false))
             ["only"] _
             (run_single (backend:=short) args_seq (task_A, None) (fresh false)).2).
    + reflexivity.
    + vm_compute. discriminate.
    + reflexivity.
    + reflexivity.
Defined.


(** C9 at work: the plain-text prompt "A" with an empty cache, and
    without a cache. *)
Lemma prompt_cache_bound_only_for_lists_witness :
  run_single (backend:=steady) args_seq (PStr "A", Some ∅) (fresh true)
    = (Raise (UnboundLocalError "prompt_cache"), fresh true) ∧
  run_single (backend:=steady) args_seq (PStr "A", None) (fresh false)
    = invoke (backend:=steady) args_seq (PStr "A") (fresh false).
Proof.
  split.
  - apply (proj2 (prompt_cache_bound_only_for_lists (backend:=steady) args_seq
                    (PStr "A") (Some ∅) (fresh true)) "A" ∅); reflexivity.
  - destruct (proj1 (prompt_cache_bound_only_for_lists (backend:=steady) args_seq
                       (PStr "A") None (fresh false)) (or_intror eq_refl))
      as [_ [(cm & msgs & v & Hc & _)|Hinv]].
    + discriminate Hc.
    + exact Hinv.
Defined.

Lemma ABA_lists : Forall (λ p, is_list p = true) ABA.
Proof.
  unfold ABA. repeat (apply List.Forall_cons; [reflexivity|]).
  apply List.Forall_nil.
Defined.

Lemma ABA_steady_ok c :
  Forall (task_ok (backend:=steady) args_par c) ABA.
Proof.
  unfold ABA.
  repeat (apply List.Forall_cons; [apply steady_task_ok; by destruct c|]).
  apply List.Forall_nil.
Defined.

(** C1 (amended) at work: tasks A, B, A on the parallel path, completed
    in the order 2, 0, 1. *)
Lemma run_batch_one_result_per_task_witness :
  ∃ outputs st',
    run_batch (backend:=steady) args_par ABA [2; 0; 1]%nat (fresh true)
      = (Ok outputs, st') ∧
    length outputs = 3%nat ∧
    ∀ i p, ABA !! i = Some p →
           ∃ v, outputs !! i = Some v ∧
                result_for (backend:=steady) args_par (Some ∅) p v.
Proof.
  apply (run_batch_one_result_per_task (backend:=steady) args_par ABA
           [2; 0; 1]%nat (fresh true)).
  - apply ABA_steady_ok.
  - intros _. apply order_201.
Defined.

(** C1, as stated, fails on a batch with a failing task: the sequential
    path returns nothing, and the parallel path returns four elements
    for three tasks. *)
Lemma failing_task_breaks_one_result_per_task :
  (∀ outputs st',
     run_batch (backend:=flaky) args_seq ABA [] (fresh true) ≠ (Ok outputs, st')) ∧
  (∀ outputs st',
     run_batch (backend:=flaky) args_par ABA [0; 1; 2]%nat (fresh true)
       = (Ok outputs, st') →
     length outputs ≠ length ABA).
Proof.
  split.
  - intros outputs st' H. vm_compute in H. discriminate H.
  - intros outputs st' H. vm_compute in H. inversion H; subst. simpl. lia.
Qed.

(** C2 on a failing input: on the parallel path the failed task B
    contributes two separate empty strings, not one list of two empty
    strings, and the result of the task after it is found one place too
    far. *)
Theorem failure_placeholder_is_flattened :
  (run_batch (backend:=flaky) args_par ABA [0; 1; 2]%nat (fresh false)).1
    = Ok [x1x2; VStr EmptyString; VStr EmptyString; x1x2] ∧
  py_len (VStr EmptyString) ≠ n args_par.
Proof. split; [reflexivity|]. vm_compute. discriminate. Qed.

(** C3 (amended) at work: tasks A, B, A on the sequential path, with a
    worker that raises for B. *)
Lemma sequential_failure_leaves_cache_witness :
  run_main (backend:=flaky) args_seq same repair_prompt_for ABA [] [] (fresh true)
    = (Raise (WorkerRaised "RuntimeError: B"),
       (run_batch (backend:=flaky) args_seq ABA [] (fresh true)).2) ∧
  cache (run_batch (backend:=flaky) args_seq ABA [] (fresh true)).2 = Some ∅ ∧
  disk (run_batch (backend:=flaky) args_seq ABA [] (fresh true)).2 = None.
Proof.
  destruct (sequential_failure_leaves_cache (backend:=flaky) args_seq
              same repair_prompt_for ABA [] [task_A] task_B [task_A] []
              (fresh true) [x1x2]
              (run_single (backend:=flaky) args_seq (task_A, Some ∅) (fresh true)).2
              (WorkerRaised "RuntimeError: B")
              (run_batch (backend:=flaky) args_seq ABA [] (fresh true)).2)
    as (_ & Hmain & Hc & Hd).
  - vm_compute. discriminate.
  - reflexivity.
  - reflexivity.
  - reflexivity.
  - reflexivity.
  - split; [exact Hmain|]. split; [exact Hc|exact Hd].
Defined.

(** C3, as stated, fails on the parallel path: the worker raises for B,
    and after [run_batch] and [save_cache] both the cache and the cache
    file hold an entry under B's key. *)
Lemma failed_task_gets_a_cache_entry :
  let st' := (run_main (backend:=flaky) args_par same repair_prompt_for
                ABA [] [0; 1; 2]%nat (fresh true)).2 in
  (_run_single (Backend:=flaky) task_B tt).1 = inl "RuntimeError: B" ∧
  cache st' ≫= (λ cm, cm !! key_B) = Some (VStr EmptyString) ∧
  disk st' ≫= (λ cm, cm !! key_B) = Some (VStr EmptyString).
Proof. vm_compute. done. Qed.

(** C7 (amended) at work: tasks A, B, A with a worker that raises for B,
    on the parallel path and on the sequential path. *)
Lemma failures_isolated_on_parallel_path_witness :
  (∃ parallel_outputs outputs st',
     run_batch (backend:=flaky) args_par ABA [2; 0; 1]%nat (fresh true)
       = (Ok outputs, st') ∧
     length parallel_outputs = 3%nat ∧
     (∀ i o, parallel_outputs !! i = Some o →
             ∃ p, ABA !! i = Some p ∧ captured (backend:=flaky) args_par (Some ∅) p o) ∧
     calls st' ≡ₚ [] ++ misses args_par (Some ∅) ABA ∧
     stdout st' = [] ++ flat_map failure_lines parallel_outputs) ∧
  (run_batch (backend:=flaky) args_seq ABA [] (fresh false)).1
    = Raise (WorkerRaised "RuntimeError: B").
Proof.
  split.
  - apply (proj1 (failures_isolated_on_parallel_path (backend:=flaky) args_par
                    ABA [2; 0; 1]%nat (fresh true))).
    + reflexivity.
    + apply order_201.
    + right. apply ABA_lists.
  - destruct (proj2 (failures_isolated_on_parallel_path (backend:=flaky) args_seq
                       ABA [] (fresh false))
                ltac:(vm_compute; discriminate)
                [task_A] task_B [task_A] [x1x2]
                (run_single (backend:=flaky) args_seq (task_A, None) (fresh false)).2
                (WorkerRaised "RuntimeError: B")
                (run_batch (backend:=flaky) args_seq ABA [] (fresh false)).2
                eq_refl eq_refl eq_refl) as [Hrun _].
    by rewrite Hrun.
Defined.

(** C7, as stated, fails at parallelism 1: the exception raised for B
    leaves [run_batch], and the task after B is never run. *)
Lemma sequential_failure_aborts_batch :
  run_batch (backend:=flaky) args_seq ABA [] (fresh false)
    = (Raise (WorkerRaised "RuntimeError: B"),
       mkState tt [task_A; task_B] [] None None).
Proof. reflexivity. Qed.

(** C4 (amended) at work, on the parallel path with two different
    completion orders. *)
Lemma duplicate_task_scenario_witness :
  ∃ st1,
    run_batch (backend:=steady) args_par ABA [2; 0; 1]%nat (BaseRunner_init true tt None)
      = (Ok [x1x2; x1x2; x1x2], st1) ∧
    length (calls st1) = 3%nat ∧
    size <$> cache st1 = Some 2%nat ∧
    ∀ w', ∃ st2,
      run_batch (backend:=steady) args_par ABA [1; 2; 0]%nat
        (BaseRunner_init true w' (disk (save_cache st1).2))
        = (Ok [x1x2; x1x2; x1x2], st2) ∧
      calls st2 = [].
Proof.
  apply (duplicate_task_scenario (backend:=steady) args_par (user "A") (user "B") tt
           [2; 0; 1]%nat [1; 2; 0]%nat).
  - reflexivity.
  - intros p w0. reflexivity.
  - vm_compute. discriminate.
  - intros _. split; [apply order_201|apply order_120].
Defined.

(** C4, as stated, fails: with the plain-text tasks "A", "B", "A" and a
    cache, [run_batch] raises without a single worker invocation, on
    either path; with list tasks A, B, A the first run invokes the worker
    3 times, not 2. *)
Lemma duplicate_is_not_deduplicated_within_a_batch :
  let plain := [PStr "A"; PStr "B"; PStr "A"] in
  let seq_plain := run_batch (backend:=steady) args_seq plain [] (fresh true) in
  let par_plain := run_batch (backend:=steady) args_par plain [0; 1; 2]%nat (fresh true) in
  let seq_lists := run_batch (backend:=steady) args_seq ABA [] (fresh true) in
  let par_lists := run_batch (backend:=steady) args_par ABA [0; 1; 2]%nat (fresh true) in
  seq_plain.1 = Raise (UnboundLocalError "prompt_cache") ∧ calls seq_plain.2 = [] ∧
  par_plain.1 = Raise (UnboundLocalError "prompt_cache") ∧ calls par_plain.2 = [] ∧
  seq_lists.1 = Ok [x1x2; x1x2; x1x2] ∧ length (calls seq_lists.2) = 3%nat ∧
  par_lists.1 = Ok [x1x2; x1x2; x1x2] ∧ length (calls par_lists.2) = 3%nat.
Proof. vm_compute. done. Qed.

(** C10 (amended) at work: the entry of B after the batch A, B, A. *)
Lemma cache_written_for_every_prompt_witness :
  (∃ cm', cache (run_batch (backend:=steady) args_seq ABA [] (fresh true)).2 = Some cm' ∧
          cm' !! json_dumps (user "B") = Some x1x2) ∧
  (∃ outputs st',
     run_batch (backend:=steady) args_par ABA [2; 0; 1]%nat (fresh true)
       = (Ok outputs, st') ∧
     Forall2 (result_for (backend:=steady) args_par (Some ∅)) ABA outputs).
Proof.
  split.
  - destruct (proj1 (cache_written_for_every_prompt (backend:=steady) args_seq
                       ABA [] (fresh true) ∅ eq_refl ABA_lists)
                [x1x2; x1x2; x1x2]
                (run_batch (backend:=steady) args_seq ABA [] (fresh true)).2
                eq_refl eq_refl) as (cm' & Hc & Hlast & _).
    exists cm'. split; [exact Hc|].
    apply (Hlast 1%nat (user "B") x1x2); try reflexivity.
    intros k msgs' Hk Hp.
    destruct k as [|[|[|k]]]; try lia; simpl in Hp; try discriminate Hp.
    inversion Hp; subst. vm_compute. discriminate.
  - apply (proj2 (cache_written_for_every_prompt (backend:=steady) args_par
                    ABA [2; 0; 1]%nat (fresh true) ∅ eq_refl ABA_lists)).
    + apply ABA_steady_ok.
    + intros _. apply order_201.
Defined.

(** C10, as stated, fails when a prompt occurs twice and the worker
    answers differently: both tasks succeed, the first A is returned
    [["0", "0"]], and the cache maps A's key to [["1", "1"]]. *)
Lemma earlier_duplicate_is_overwritten :
  let r := run_batch (backend:=counting) args_seq [task_A; task_A] []
             (BaseRunner_init true 0%nat None) in
  r.1 = Ok [VList ["0"; "0"]; VList ["1"; "1"]] ∧
  cache r.2 ≫= (λ cm, cm !! json_dumps (user "A")) = Some (VList ["1"; "1"]) ∧
  cache r.2 ≫= (λ cm, cm !! json_dumps (user "A")) ≠ Some (VList ["0"; "0"]).
Proof. vm_compute. split; [done|]. split; [done|]. discriminate. Qed.

(** C8 at work: one record with a passed attempt, whose stored output is
    reused, and a failed attempt, which is sent to the worker. *)
Lemma self_repair_replays_attempts_witness :
  let run := run_main (backend:=steady) args_repair same repair_prompt_for
               [] graded_run [] in
  (cache (run (fresh true)).2 = Some ∅ ∧ disk (run (fresh true)).2 = None) ∧
  (∃ outputs, (run (fresh true)).1 = Ok (Repaired outputs)) ∧
  (run (fresh true)).1 = Ok (Repaired [[VStr "o0"; x1x2]]).
Proof.
  intros run.
  destruct (self_repair_replays_attempts (backend:=steady) args_repair
              same repair_prompt_for [] graded_run [] (fresh true) eq_refl)
    as ((Hc & Hd & _) & _ & Htotal).
  split; [split; [exact Hc|exact Hd]|]. split; [|reflexivity].
  apply Htotal.
  - apply List.Forall_cons; [|apply List.Forall_nil]. vm_compute. done.
  - intros p w. by exists ["x1"; "x2"], w.
Defined.

End Demo_facts.

(** * Further properties of the runner *)

Section More.
Context {W : Type} {serializer : Serializer} {backend : Backend W}.
Variable args : Args.

Implicit Types (p : prompt) (c : option (gmap string pyval)) (st : state W).
Implicit Types (v : pyval) (cm : gmap string pyval).

(** ** The cache-writing loop on arbitrary prompts *)

Lemma store_outputs_sem (pairs : list (prompt * pyval)) pc st cm :
  cache st = Some cm →
  store_outputs pairs pc st =
    if loop_raises pairs pc then (Raise (UnboundLocalError "prompt_cache"), st)
    else (Ok tt, with_store (Some (written cm (assignments pairs pc))) (disk st) st).
Proof.
  revert pc st cm. induction pairs as [|[p o] rest IH]; intros pc st cm Hc.
  - destruct st; simpl in *; by subst.
  - destruct p as [text|msgs].
    + destruct pc as [k|]; [|done].
      cbn [store_outputs loop_raises assignments carry key_of].
      unfold bind, cache_store.
      rewrite (IH (Some k) _ (<[k := o]> cm)) by (simpl; by rewrite Hc).
      by destruct rest as [|[[?|?] ?] ?].
    + cbn [store_outputs loop_raises assignments carry key_of].
      unfold bind, cache_store.
      rewrite (IH (Some (json_dumps msgs)) _ (<[json_dumps msgs := o]> cm))
        by (simpl; by rewrite Hc).
      by destruct rest as [|[[?|?] ?] ?].
Qed.

Lemma assignments_app (l1 l2 : list (prompt * pyval)) pc :
  loop_raises l1 pc = false →
  assignments (l1 ++ l2) pc =
    assignments l1 pc ++ assignments l2 (foldl carry pc l1.*1).
Proof.
  revert pc. induction l1 as [|[p o] l1 IH]; intros pc Hr; [done|].
  simpl. destruct p as [text|msgs]; simpl.
  - destruct pc as [k|]; [|done]. simpl. f_equal.
    apply IH. by destruct l1 as [|[[?|?] ?] ?].
  - f_equal. apply IH. by destruct l1 as [|[[?|?] ?] ?].
Qed.

Lemma assignments_plain (tail : list (prompt * pyval)) k :
  Forall (λ po, is_list po.1 = false) tail →
  assignments tail (Some k) = (λ po, (k, po.2)) <$> tail.
Proof.
  induction 1 as [|[p o] tail Hp _ IH]; [done|].
  destruct p as [text|msgs]; [|done]. simpl. by rewrite IH.
Qed.

Lemma written_last_key cm (l : list (string * pyval)) k v (vs : list pyval) :
  written cm (l ++ (k, v) :: ((λ o, (k, o)) <$> vs)) !! k = Some (default v (last vs)).
Proof.
  induction vs as [|o vs _] using rev_ind.
  - simpl. rewrite written_snoc. apply lookup_insert_eq.
  - rewrite fmap_app. simpl. rewrite last_snoc. simpl.
    rewrite app_comm_cons, app_assoc, written_snoc. apply lookup_insert_eq.
Qed.

(** X1. In the final loop of [run_batch] a prompt that is not a list is
    stored under the key left by the iteration before it.  So when a list
    prompt is followed by prompts that are not lists, the entry under the
    key of the list prompt ends up holding the output paired with the
    last of them, not the output of the list prompt. *)
Theorem plain_prompt_overwrites_previous_key
    (pre : list (prompt * pyval)) msgs (o : pyval) (tail : list (prompt * pyval))
    pc st cm st1 :
  cache st = Some cm →
  store_outputs pre pc st = (Ok tt, st1) →
  Forall (λ po, is_list po.1 = false) tail →
  ∃ st2,
    store_outputs (pre ++ (PList msgs, o) :: tail) pc st = (Ok tt, st2) ∧
    cache st2 ≫= (λ m, m !! json_dumps msgs) = Some (default o (last tail.*2)).
Proof.
  intros Hc Hpre Htail.
  rewrite (store_outputs_sem _ _ _ cm Hc) in Hpre.
  destruct (loop_raises pre pc) eqn:Hr; [done|].
  rewrite (store_outputs_sem _ _ _ cm Hc).
  assert (loop_raises (pre ++ (PList msgs, o) :: tail) pc = false) as ->.
  { destruct pre as [|[[?|?] ?] ?]; try done. }
  eexists. split; [done|]. simpl.
  rewrite assignments_app by done. cbn [assignments carry key_of].
  rewrite assignments_plain by done.
  rewrite <- (written_last_key cm (assignments pre pc) (json_dumps msgs) o tail.*2).
  do 3 f_equal. by rewrite <- list_fmap_compose.
Qed.

Lemma assignments_keys (pairs : list (prompt * pyval)) pc kv :
  kv ∈ assignments pairs pc →
  Some kv.1 = pc ∨ ∃ msgs o, (PList msgs, o) ∈ pairs ∧ kv.1 = json_dumps msgs.
Proof.
  revert pc. induction pairs as [|[p o] rest IH]; intros pc Hin.
  - by apply elem_of_nil in Hin.
  - simpl in Hin. destruct p as [text|msgs]; simpl in Hin.
    + destruct pc as [k|]; [|by apply elem_of_nil in Hin].
      apply elem_of_cons in Hin as [->|Hin]; [by left|].
      destruct (IH _ Hin) as [Hk|(msgs & o' & Hm & Hk)]; [by left|].
      right. exists msgs, o'. split; [|done]. by apply list_elem_of_further.
    + right. apply elem_of_cons in Hin as [->|Hin].
      * exists msgs, o. split; [apply list_elem_of_here|done].
      * destruct (IH _ Hin) as [Hk|(msgs' & o' & Hm & Hk)].
        -- exists msgs, o. split; [apply list_elem_of_here|]. by inversion Hk.
        -- exists msgs', o'. split; [|done]. by apply list_elem_of_further.
Qed.

Lemma written_is_Some cm (l : list (string * pyval)) k :
  is_Some (written cm l !! k) ↔ is_Some (cm !! k) ∨ k ∈ l.*1.
Proof.
  induction l as [|[k' v] l IH] using rev_ind.
  - simpl. split; [by left|]. intros [?|Hin]; [done|]. by apply elem_of_nil in Hin.
  - rewrite written_snoc, fmap_app, elem_of_app. simpl.
    rewrite lookup_insert. case_decide as Hk.
    + subst k'. split; [|by eexists]. intros _. right. right. apply list_elem_of_here.
    + rewrite IH. split; intros [?|Hin]; auto.
      destruct Hin as [?|Hin]; auto.
      apply elem_of_cons in Hin as [->|Hin]; [done|]. by apply elem_of_nil in Hin.
Qed.

(** ** What [run_batch] does to the cache *)

(** X2. Whatever its result, [run_batch] leaves the cache file alone and
    never removes a cache entry: without a cache there is none afterwards,
    and with a cache every key present before is present after, and every
    key present after was present before or is the serialization of a list
    prompt of the batch. *)
Theorem run_batch_only_adds_entries prompts order st r st' :
  run_batch args prompts order st = (r, st') →
  disk st' = disk st ∧
  match cache st with
  | None => cache st' = None
  | Some cm =>
      ∃ cm', cache st' = Some cm' ∧
        (∀ k, is_Some (cm !! k) → is_Some (cm' !! k)) ∧
        (∀ k, is_Some (cm' !! k) →
              is_Some (cm !! k) ∨ ∃ msgs, PList msgs ∈ prompts ∧ k = json_dumps msgs)
  end.
Proof.
  rewrite run_batch_unfold.
  destruct (execute args prompts order st) as [[outs|e] st1] eqn:Hexec;
    apply execute_frame in Hexec as [Hc Hd].
  - destruct (cache st) as [cm|] eqn:Hcm; rewrite Hc.
    + rewrite (store_outputs_sem _ _ _ cm Hc).
      destruct (loop_raises _ _).
      * intros Heq; inversion Heq; subst. split; [done|].
        exists cm. split; [done|]. split; auto.
      * intros Heq; inversion Heq; subst. split; [done|]. simpl.
        eexists. split; [done|]. split.
        -- intros k Hk. apply written_is_Some. by left.
        -- intros k Hk. apply written_is_Some in Hk as [Hk|Hk]; [by left|].
           right. apply list_elem_of_fmap in Hk as ([k' v] & -> & Hin).
           apply assignments_keys in Hin as [Hnone|(msgs & o & Hm & ->)]; [done|].
           exists msgs. split; [|done].
           apply list_elem_of_lookup_1 in Hm as [i Hi].
           apply lookup_zip_with_Some in Hi as (q & o' & Heq' & Hq & _).
           inversion Heq'; subst. by eapply list_elem_of_lookup_2.
    + intros Heq; inversion Heq; subst. done.
  - intros Heq; inversion Heq; subst. split; [done|].
    destruct (cache st) as [cm|]; [|done].
    exists cm. split; [done|]. split; auto.
Qed.

Lemma run_pool_nil {A} (func : A → M (W:=W) pyval) order acc st :
  run_pool func [] order acc st = (Ok acc, st).
Proof.
  revert acc. induction order as [|i order IH]; intros acc; [reflexivity|]. apply IH.
Qed.

(** X3. On an empty batch [run_batch] returns the empty list and changes
    nothing: no worker call, no output, no cache write, on either path and
    whatever order the pool is given. *)
Theorem run_batch_empty order st :
  run_batch args [] order st = (Ok [], st).
Proof.
  rewrite run_batch_unfold.
  assert (execute args [] order st = (Ok [], st)) as ->.
  { destruct (Z.lt_ge_cases 1 (multiprocess args)) as [Hmp|Hmp].
    - rewrite execute_parallel by done.
      unfold run_tasks_in_parallel, bind. cbn [map]. by rewrite run_pool_nil.
    - by rewrite execute_sequential. }
  by destruct (cache st).
Qed.

(** ** Returning runs *)

Lemma run_single_Ok_inv p c st v st' :
  run_single args (p, c) st = (Ok v, st') →
  py_len v = n args ∧ bound c p = true ∧
  calls st' = calls st ++ misses args c [p] ∧ stdout st' = stdout st.
Proof.
  intros Hrun. pose proof Hrun as Hfr.
  apply run_single_frame in Hfr as (Ho & _ & _ & _).
  assert (bound c p = true ∧ py_len v = n args) as [Hb Hn].
  { rewrite run_single_eq in Hrun.
    destruct (cache_get args c p) as [v0|] eqn:Hget.
    - inversion Hrun; subst.
      apply cache_get_Some in Hget as (cm & msgs & -> & -> & _ & Hn). done.
    - destruct (bound c p); [|done]. split; [done|].
      rewrite invoke_eq in Hrun.
      destruct (_run_single p (world st)) as [[tb|items] w']; [done|].
      destruct (Z.eqb_spec (Z.of_nat (length items)) (n args)); [|done].
      by inversion Hrun; subst. }
  split; [done|]. split; [done|]. split; [|done].
  by eapply run_single_calls.
Qed.

Lemma mapM_run_single_Ok_inv c prompts st outputs st' :
  mapM (run_single args) (map (λ p, (p, c)) prompts) st = (Ok outputs, st') →
  length outputs = length prompts ∧
  Forall (λ v, py_len v = n args) outputs ∧
  Forall (λ p, bound c p = true) prompts ∧
  calls st' = calls st ++ misses args c prompts.
Proof.
  revert st outputs. induction prompts as [|p prompts IH]; intros st outputs; cbn [map].
  - intros Heq; inversion Heq; subst. simpl. by rewrite app_nil_r.
  - rewrite mapM_cons.
    destruct (run_single args (p, c) st) as [[v|e] s1] eqn:H1; [|done].
    destruct (mapM _ _ s1) as [[vs|e] s2] eqn:H2; [|done].
    intros Heq; inversion Heq; subst.
    apply run_single_Ok_inv in H1 as (Hn & Hb & Hc & _).
    apply IH in H2 as (Hlen & Hns & Hbs & Hcs).
    split; [simpl; by rewrite Hlen|]. split; [by constructor|].
    split; [by constructor|].
    by rewrite misses_cons, Hcs, Hc, <- app_assoc.
Qed.

(** X4. Every sequential [run_batch] that returns has one output per
    prompt, each with exactly [n] entries; it has invoked the worker, in
    the order of the batch, for exactly the prompts that the cache did not
    serve, and it has printed nothing.  With a cache, such a batch holds
    list prompts only. *)
Theorem sequential_return_is_complete prompts order st outputs st' :
  multiprocess args ≤ 1 →
  run_batch args prompts order st = (Ok outputs, st') →
  length outputs = length prompts ∧
  Forall (λ v, py_len v = n args) outputs ∧
  calls st' = calls st ++ misses args (cache st) prompts ∧
  stdout st' = stdout st ∧
  (is_Some (cache st) → Forall (λ p, is_list p = true) prompts).
Proof.
  intros Hmp. rewrite run_batch_unfold, execute_sequential by done.
  destruct (mapM _ _ st) as [[outs|e] st1] eqn:Hrun; [|done].
  pose proof (mapM_run_single_frame _ _ _ _ _ _ Hrun) as (Ho & Hc & _).
  apply mapM_run_single_Ok_inv in Hrun as (Hlen & Hns & Hbs & Hcalls).
  assert (is_Some (cache st) → Forall (λ p, is_list p = true) prompts) as Hlists.
  { intros [cm Hcm]. rewrite Hcm in Hbs. done. }
  destruct (cache st1) as [cm|] eqn:Hcm.
  - rewrite (store_outputs_sem _ _ _ cm Hcm).
    destruct (loop_raises _ _); [done|].
    intros Heq; inversion Heq; subst. done.
  - intros Heq; inversion Heq; subst. done.
Qed.

(** ** Which worker calls a batch makes *)

Lemma run_single_calls_any p c st r st' :
  run_single args (p, c) st = (r, st') →
  ∃ extra, calls st' = calls st ++ extra ∧
           Forall (λ q, q = p ∧ cache_get args c p = None) extra.
Proof.
  rewrite run_single_eq.
  destruct (cache_get args c p) as [v|] eqn:Hget.
  - intros Heq; inversion Heq; subst. exists []. by rewrite app_nil_r.
  - destruct (bound c p).
    + intros Hinv. apply invoke_frame in Hinv as (Hc & _).
      exists [p]. split; [done|]. by constructor.
    + intros Heq; inversion Heq; subst. exists []. by rewrite app_nil_r.
Qed.

Lemma mapM_run_single_calls_any c prompts st r st' :
  mapM (run_single args) (map (λ p, (p, c)) prompts) st = (r, st') →
  ∃ extra, calls st' = calls st ++ extra ∧
           Forall (λ q, q ∈ prompts ∧ cache_get args c q = None) extra.
Proof.
  revert st r st'. induction prompts as [|p prompts IH]; intros st r st'; cbn [map].
  - intros Heq; inversion Heq; subst. exists []. by rewrite app_nil_r.
  - rewrite mapM_cons.
    destruct (run_single args (p, c) st) as [[v|e] s1] eqn:H1;
      apply run_single_calls_any in H1 as (ex1 & Hc1 & HF1).
    + destruct (mapM _ _ s1) as [r2 s2] eqn:H2.
      apply IH in H2 as (ex2 & Hc2 & HF2).
      intros Heq.
      assert (s2 = st') as <- by (destruct r2; by inversion Heq).
      exists (ex1 ++ ex2). split; [by rewrite Hc2, Hc1, <- app_assoc|].
      apply Forall_app. split.
      * eapply Forall_impl; [exact HF1|]. intros q [-> Hq].
        split; [apply list_elem_of_here|done].
      * eapply Forall_impl; [exact HF2|]. intros q [Hq Hq'].
        split; [by apply list_elem_of_further|done].
    + intros Heq; inversion Heq; subst. exists ex1. split; [done|].
      eapply Forall_impl; [exact HF1|]. intros q [-> Hq].
      split; [apply list_elem_of_here|done].
Qed.

Lemma run_pool_calls_any c prompts order acc st r st' :
  run_pool (run_single args) (map (λ p, (p, c)) prompts) order acc st = (r, st') →
  ∃ extra, calls st' = calls st ++ extra ∧
           Forall (λ q, q ∈ prompts ∧ cache_get args c q = None) extra.
Proof.
  revert acc st. induction order as [|i order IH]; intros acc st.
  - intros Heq; inversion Heq; subst. exists []. by rewrite app_nil_r.
  - simpl. rewrite list_lookup_fmap.
    destruct (prompts !! i) as [p|] eqn:Hp; simpl; [|apply IH].
    unfold bind at 1, capture.
    destruct (run_single args (p, c) st) as [[v|e] s1] eqn:H1;
      apply run_single_calls_any in H1 as (ex1 & Hc1 & HF1);
      intros Hrest; apply IH in Hrest as (ex2 & Hc2 & HF2);
      (exists (ex1 ++ ex2); split; [by rewrite Hc2, Hc1, <- app_assoc|];
       apply Forall_app; split; [|done];
       eapply Forall_impl; [exact HF1|]; intros q [-> Hq];
       split; [by eapply list_elem_of_lookup_2|done]).
Qed.

Lemma execute_calls_any prompts order st r1 st1 :
  execute args prompts order st = (r1, st1) →
  ∃ extra, calls st1 = calls st ++ extra ∧
           Forall (λ q, q ∈ prompts ∧ cache_get args (cache st) q = None) extra.
Proof.
  destruct (Z.lt_ge_cases 1 (multiprocess args)) as [Hmp|Hmp].
  - rewrite execute_parallel by done. unfold run_tasks_in_parallel, bind.
    destruct (run_pool _ _ _ _ st) as [[acc|e] s1] eqn:Hpool;
      apply run_pool_calls_any in Hpool as (extra & Hc & HF).
    + unfold ret.
      match goal with
      | |- collect args ?po [] s1 = _ → _ =>
          destruct (collect_spec args po [] s1) as (outs & s2 & Hcol & _ & Hc2 & _)
      end.
      rewrite Hcol. intros Heq; inversion Heq; subst.
      exists extra. split; [congruence|done].
    + intros Heq; inversion Heq; subst. by exists extra.
  - rewrite execute_sequential by done. apply mapM_run_single_calls_any.
Qed.

(** X5. Whatever its result, on either path and for every order given to
    the pool, [run_batch] only adds to the record of worker calls, and
    every call it adds is for a prompt of the batch that the cache, as it
    was when the batch started, does not serve: a cache hit never reaches
    the worker. *)
Theorem worker_called_only_for_misses prompts order st r st' :
  run_batch args prompts order st = (r, st') →
  ∃ extra, calls st' = calls st ++ extra ∧
           Forall (λ q, q ∈ prompts ∧ cache_get args (cache st) q = None) extra.
Proof.
  rewrite run_batch_unfold.
  destruct (execute args prompts order st) as [[outs|e] st1] eqn:Hrun;
    destruct (execute_calls_any _ _ _ _ _ Hrun) as (extra & Hc & HF).
  - destruct (cache st1) as [cm|] eqn:Hcm.
    + rewrite (store_outputs_sem _ _ _ cm Hcm).
      destruct (loop_raises _ _); intros Heq; inversion Heq; subst; by exists extra.
    + intros Heq; inversion Heq; subst. by exists extra.
  - intros Heq; inversion Heq; subst. by exists extra.
Qed.

(** ** The parallel path *)

Lemma collect_outputs (parallel_outputs : list Outcome) acc st :
  (collect args parallel_outputs acc st).1 =
    Ok (acc ++ flat_map (placed args) parallel_outputs).
Proof.
  revert acc st.
  induction parallel_outputs as [|[r|status tb] rest IH]; intros acc st.
  - simpl. by rewrite app_nil_r.
  - simpl. by rewrite IH, <- app_assoc.
  - cbn [collect]. unfold bind, print. simpl. by rewrite IH, <- app_assoc.
Qed.

Lemma captured_Success c p r :
  captured args c p (Success r) → py_len r = n args.
Proof.
  intros (sa & sb & Hcap). unfold capture in Hcap.
  destruct (run_single args (p, c) sa) as [[v|e] s1] eqn:Hrun; [|done].
  inversion Hcap; subst. by apply run_single_Ok_inv in Hrun as (? & _).
Qed.

(** The first phase on the parallel path: the outcomes of the tasks, one
    per task, and what the loop makes of them. *)
Lemma execute_parallel_inv prompts order st :
  1 < multiprocess args →
  order ≡ₚ seq 0 (length prompts) →
  ∃ parallel_outputs st1,
    execute args prompts order st
      = (Ok (flat_map (placed args) parallel_outputs), st1) ∧
    length parallel_outputs = length prompts ∧
    (∀ i o, parallel_outputs !! i = Some o →
            ∃ p, prompts !! i = Some p ∧ captured args (cache st) p o) ∧
    cache st1 = cache st ∧ disk st1 = disk st.
Proof.
  intros Hmp Hperm.
  destruct (run_tasks_in_parallel_spec args (cache st) prompts order st Hperm)
    as (po & s1 & Hrun & Hlen & Hsrc & _ & Hc & Hd & _).
  destruct (collect_spec args po [] s1) as (outs & s2 & Hcol & _ & _ & Hc2 & Hd2 & _).
  pose proof (collect_outputs po [] s1) as Houts.
  rewrite Hcol in Houts. simpl in Houts. inversion Houts; subst outs.
  exists po, s2. rewrite execute_parallel, Hrun, Hcol by done.
  split; [done|]. split; [done|]. split; [done|]. split; congruence.
Qed.

(** What a captured outcome tells about its task. *)
Lemma captured_outcome_of c p o :
  captured args c p o → outcome_of args c p o.
Proof.
  intros (sa & sb & Hcap). unfold capture in Hcap.
  destruct (run_single args (p, c) sa) as [[v|e] s1] eqn:Hrun;
    inversion Hcap; subst; simpl.
  - rewrite run_single_eq in Hrun.
    destruct (cache_get args c p) as [v0|] eqn:Hget.
    + inversion Hrun; subst. by left.
    + destruct (bound c p); [|done]. rewrite invoke_eq in Hrun.
      destruct (_run_single p (world sa)) as [[tb|items] w'] eqn:Hw; [done|].
      destruct (Z.eqb_spec (Z.of_nat (length items)) (n args)) as [Hn|]; [|done].
      inversion Hrun; subst. right. split; [done|].
      by exists (world sa), w', items.
  - split; [done|]. by exists e, sa, sb.
Qed.

(** A task that fails whatever the backend's state is recorded as a
    failure. *)
Lemma captured_fails c p o :
  task_fails args c p → captured args c p o →
  ∃ tb, o = Failure "EXCEPTION" tb.
Proof.
  intros [Hget Hwhy] (sa & sb & Hcap). unfold capture in Hcap.
  rewrite run_single_eq, Hget in Hcap.
  destruct Hwhy as [Hb|Hw].
  - rewrite Hb in Hcap. inversion Hcap; subst. by eexists.
  - destruct (bound c p); [|inversion Hcap; subst; by eexists].
    rewrite invoke_eq in Hcap. specialize (Hw (world sa)).
    destruct (_run_single p (world sa)) as [[tb|items] w']; simpl in Hw.
    + inversion Hcap; subst. by eexists.
    + destruct (Z.eqb_spec (Z.of_nat (length items)) (n args)); [done|].
      inversion Hcap; subst. by eexists.
Qed.

(** The pool, one stretch of the completion order after another. *)
Lemma run_pool_app {A} (func : A → M (W:=W) pyval) (arguments : list A)
    (o1 o2 : list nat) (acc : gmap nat Outcome) st :
  run_pool func arguments (o1 ++ o2) acc st =
    match run_pool func arguments o1 acc st with
    | (Ok d1, s1) => run_pool func arguments o2 d1 s1
    | (Raise e, s1) => (Raise e, s1)
    end.
Proof.
  revert acc st. induction o1 as [|i o1 IH]; intros acc st; [done|].
  simpl. destruct (arguments !! i) as [a|]; [|apply IH].
  unfold bind. destruct (capture func a st) as [[o|e] s0]; [apply IH|done].
Qed.

Lemma run_pool_total {A} (func : A → M (W:=W) pyval) (arguments : list A)
    (order : list nat) (acc : gmap nat Outcome) st :
  ∃ d s, run_pool func arguments order acc st = (Ok d, s).
Proof.
  revert acc st. induction order as [|i order IH]; intros acc st.
  - by exists acc, st.
  - simpl. destruct (arguments !! i) as [a|]; [|apply IH].
    unfold bind, capture. destruct (func a st) as [[v|e] s0]; apply IH.
Qed.

(** An outcome stays as recorded while the pool runs other tasks. *)
Lemma run_pool_keep {A} (func : A → M (W:=W) pyval) (arguments : list A)
    (order : list nat) (acc d : gmap nat Outcome) st s (i : nat) :
  i ∉ order →
  run_pool func arguments order acc st = (Ok d, s) →
  d !! i = acc !! i.
Proof.
  revert acc st. induction order as [|j order IH]; intros acc st Hi.
  - simpl. unfold ret. intros Heq; by inversion Heq.
  - apply not_elem_of_cons in Hi as [Hne Hi]. simpl.
    destruct (arguments !! j) as [a|]; [|by apply IH].
    unfold bind. destruct (capture func a st) as [[o|e] s0]; [|done].
    intros Hrun. rewrite (IH _ _ Hi Hrun). by apply lookup_insert_ne.
Qed.

(** Every task has its position in the completion order, and the outcome
    that the pool returns at the index of the task is the one recorded
    there: that of [run_single] on the task in the state that the run had
    reached. *)
Lemma run_tasks_in_parallel_trace c prompts order st parallel_outputs s1 :
  order ≡ₚ seq 0 (length prompts) →
  run_tasks_in_parallel (run_single args) (map (λ p, (p, c)) prompts) order st
    = (Ok parallel_outputs, s1) →
  ∀ i p, prompts !! i = Some p →
    ∃ k o, order !! k = Some i ∧ parallel_outputs !! i = Some o ∧
           capture (run_single args) (p, c) (reached args c prompts order k st)
             = (Ok o, reached args c prompts order (S k) st).
Proof.
  intros Hperm Hrun i p Hp.
  assert (i < length prompts)%nat as Hlt by (by eapply lookup_lt_Some).
  assert (i ∈ order) as Hin.
  { rewrite Hperm. apply elem_of_seq. lia. }
  apply list_elem_of_lookup_1 in Hin as [k Hk].
  assert (NoDup order) as Hnd.
  { rewrite Hperm. apply NoDup_seq. }
  pose proof (take_drop_middle order k i Hk) as Hsplit.
  assert (i ∉ drop (S k) order) as Hlater.
  { rewrite <- Hsplit in Hnd. apply NoDup_app in Hnd as (_ & _ & Hnd).
    by apply NoDup_cons in Hnd as [? _]. }
  set (arguments := map (λ p, (p, c)) prompts) in *.
  assert (arguments !! i = Some (p, c)) as Harg.
  { unfold arguments. by rewrite list_lookup_fmap, Hp. }
  destruct (run_pool_total (run_single args) arguments (take k order) ∅ st)
    as (d1 & sa & Hpre).
  destruct (capture_run_single args c p sa) as (o & sb & Hcap & _).
  assert (reached args c prompts order k st = sa) as Hsa.
  { unfold reached. fold arguments. by rewrite Hpre. }
  assert (reached args c prompts order (S k) st = sb) as Hsb.
  { unfold reached. fold arguments.
    rewrite (take_S_r _ _ _ Hk), run_pool_app, Hpre. simpl.
    rewrite Harg. unfold bind. by rewrite Hcap. }
  exists k, o. rewrite Hsa, Hsb. split; [done|]. split; [|done].
  unfold run_tasks_in_parallel, bind in Hrun.
  rewrite <- Hsplit, run_pool_app, Hpre in Hrun. simpl in Hrun.
  rewrite Harg in Hrun. unfold bind in Hrun. rewrite Hcap in Hrun.
  destruct (run_pool (run_single args) arguments (drop (S k) order)
              (<[i := o]> d1) sb) as [[d|e] s2] eqn:Hpost; [|done].
  unfold ret in Hrun. inversion Hrun; subst parallel_outputs s1.
  pose proof (run_pool_keep _ _ _ _ _ _ _ i Hlater Hpost) as Hkeep.
  rewrite lookup_insert_eq in Hkeep.
  destruct (run_pool_spec args c prompts order ∅ st)
    as (dn & st' & Hall & _ & _ & _ & _ & Hcov & _).
  destruct (reassemble_spec dn (length prompts)) as [_ Hlk].
  { intros j Hj. apply Hcov; [done|]. rewrite Hperm. apply elem_of_seq. lia. }
  fold arguments in Hall.
  rewrite <- Hsplit, run_pool_app, Hpre in Hall. simpl in Hall.
  rewrite Harg in Hall. unfold bind in Hall. rewrite Hcap, Hpost in Hall.
  inversion Hall; subst dn st'.
  unfold arguments. rewrite length_map, (Hlk i Hlt). exact Hkeep.
Qed.

(** A returning [run_batch] on the parallel path, taken apart: the
    outcomes that the pool returned in this run, one per task at the
    task's index, the list built from them and the lines printed. *)
Lemma run_batch_parallel_inv prompts order st outputs st' :
  1 < multiprocess args →
  order ≡ₚ seq 0 (length prompts) →
  run_batch args prompts order st = (Ok outputs, st') →
  ∃ parallel_outputs s1,
    run_tasks_in_parallel (run_single args)
      (map (λ p, (p, cache st)) prompts) order st = (Ok parallel_outputs, s1) ∧
    length parallel_outputs = length prompts ∧
    (∀ i o, parallel_outputs !! i = Some o →
            ∃ p, prompts !! i = Some p ∧ captured args (cache st) p o) ∧
    outputs = flat_map (placed args) parallel_outputs ∧
    stdout st' = stdout st ++ flat_map failure_lines parallel_outputs.
Proof.
  intros Hmp Hperm. rewrite run_batch_unfold, execute_parallel by done.
  destruct (run_tasks_in_parallel_spec args (cache st) prompts order st Hperm)
    as (po & s1 & Hrun & Hlen & Hsrc & Ho & _).
  rewrite Hrun.
  destruct (collect_spec args po [] s1) as (outs & s2 & Hcol & _ & _ & _ & _ & Hout).
  pose proof (collect_outputs po [] s1) as Houts.
  rewrite Hcol in Houts. simpl in Houts. inversion Houts; subst outs.
  rewrite Hcol. intros Hstore.
  assert (outputs = flat_map (placed args) po ∧ stdout st' = stdout s2) as [-> Hs].
  { destruct (cache s2) as [cm|] eqn:Hcm; [|by inversion Hstore].
    rewrite (store_outputs_sem _ _ _ cm Hcm) in Hstore.
    destruct (loop_raises _ _); by inversion Hstore. }
  exists po, s1. split; [done|]. split; [done|]. split; [done|].
  split; [done|]. by rewrite Hs, Hout, Ho.
Qed.

(** X6. Every [run_batch] on the parallel path that returns has built its
    list from the outcomes that the pool returned in this run, one
    outcome per task at the index of the task: the outcome of task [i] is
    that of [run_single] on task [i] in the state that the run had reached
    when the pool came to it.  In the order of the tasks, a success
    contributes its result, which is a result for its task and has
    exactly [n] entries, and a failure, which carries the diagnostic of the
    exception that [run_single] raised on its task, contributes [n]
    separate empty strings.  A task that cannot fail is recorded as a
    success and a task that fails in every state of the backend as a
    failure.  So every element returned is a result with [n] entries or
    the empty string. *)
Theorem parallel_return_shape prompts order st outputs st' :
  1 < multiprocess args →
  order ≡ₚ seq 0 (length prompts) →
  run_batch args prompts order st = (Ok outputs, st') →
  ∃ parallel_outputs s1,
    run_tasks_in_parallel (run_single args)
      (map (λ p, (p, cache st)) prompts) order st = (Ok parallel_outputs, s1) ∧
    length parallel_outputs = length prompts ∧
    (∀ i o, parallel_outputs !! i = Some o →
       ∃ p, prompts !! i = Some p ∧ captured args (cache st) p o ∧
            outcome_of args (cache st) p o) ∧
    (∀ i p, prompts !! i = Some p →
       ∃ k o, order !! k = Some i ∧ parallel_outputs !! i = Some o ∧
              capture (run_single args) (p, cache st)
                (reached args (cache st) prompts order k st)
                = (Ok o, reached args (cache st) prompts order (S k) st)) ∧
    (∀ i p, prompts !! i = Some p → task_ok args (cache st) p →
       ∃ r, parallel_outputs !! i = Some (Success r) ∧
            result_for args (cache st) p r) ∧
    (∀ i p, prompts !! i = Some p → task_fails args (cache st) p →
       ∃ tb, parallel_outputs !! i = Some (Failure "EXCEPTION" tb)) ∧
    outputs = flat_map (placed args) parallel_outputs ∧
    Forall (λ o, ∀ r, o = Success r → py_len r = n args) parallel_outputs ∧
    Forall (λ v, py_len v = n args ∨ v = VStr EmptyString) outputs.
Proof.
  intros Hmp Hperm Hrun.
  destruct (run_batch_parallel_inv prompts order st outputs st' Hmp Hperm Hrun)
    as (po & s1 & Hpool & Hlen & Hsrc & -> & _).
  pose proof (run_tasks_in_parallel_trace (cache st) prompts order st po s1
                Hperm Hpool) as Htrace.
  assert (∀ i p, prompts !! i = Some p →
            ∃ o, po !! i = Some o ∧ captured args (cache st) p o) as Hat.
  { intros i p Hp.
    destruct (lookup_lt_is_Some_2 po i) as [o Ho].
    { rewrite Hlen. by eapply lookup_lt_Some. }
    destruct (Hsrc i o Ho) as (p' & Hp' & Hcap).
    rewrite Hp in Hp'. inversion Hp'; subst p'. by exists o. }
  assert (Forall (λ o, ∀ r, o = Success r → py_len r = n args) po) as Hsucc.
  { apply Forall_lookup. intros i o Hi r ->.
    destruct (Hsrc i _ Hi) as (p & _ & Hcap). by eapply captured_Success. }
  exists po, s1. split; [done|]. split; [done|].
  split; [|split; [done|split; [|split; [|split; [done|split; [done|]]]]]].
  - intros i o Hi. destruct (Hsrc i o Hi) as (p & Hp & Hcap).
    exists p. split; [done|]. split; [done|]. by apply captured_outcome_of.
  - intros i p Hp Hok. destruct (Hat i p Hp) as (o & Ho & Hcap).
    destruct (captured_ok args _ _ _ Hok Hcap) as (r & -> & Hr). by exists r.
  - intros i p Hp Hfail. destruct (Hat i p Hp) as (o & Ho & Hcap).
    destruct (captured_fails _ _ _ Hfail Hcap) as (tb & ->). by exists tb.
  - clear Hlen Hsrc Hpool Hrun Hat Htrace. induction po as [|o po IH]; [constructor|].
    apply Forall_cons in Hsucc as [Ho Hsucc]. simpl.
    apply Forall_app. split; [|by apply IH].
    destruct o as [r|status tb]; simpl.
    + constructor; [|constructor]. left. by apply Ho.
    + apply Forall_replicate. by right.
Qed.

(** X12. On the parallel path every failed task is reported in three
    printed lines and stands in the returned list for [n] elements instead
    of one.  Let [f] be the number of failures among the outcomes that the
    pool returned in this run, one outcome per task at the index of the
    task, where a failure is recorded for a task exactly when
    [run_single] raised on it in the state that the run had reached when
    the pool came to the task.  A returning [run_batch] has
    printed the three lines of each failure, in the order of the tasks,
    [3 * f] lines in all, and the length of its list plus [f] is the
    number of tasks plus [f] times [n].  When no task can fail, [f] is 0:
    nothing is printed and the list has one element per task; when every
    task fails in every state of the backend, [f] is the number of tasks;
    and when [n] is 1 the list has one element per task whatever [f]
    is. *)
Theorem parallel_failures_are_counted prompts order st outputs st' :
  1 < multiprocess args →
  order ≡ₚ seq 0 (length prompts) →
  run_batch args prompts order st = (Ok outputs, st') →
  ∃ parallel_outputs s1,
    run_tasks_in_parallel (run_single args)
      (map (λ p, (p, cache st)) prompts) order st = (Ok parallel_outputs, s1) ∧
    length parallel_outputs = length prompts ∧
    (∀ i p, prompts !! i = Some p →
       ∃ k o, order !! k = Some i ∧ parallel_outputs !! i = Some o ∧
              (is_failure o = true ↔
               ∃ e, (run_single args (p, cache st)
                       (reached args (cache st) prompts order k st)).1 = Raise e)) ∧
    (failures parallel_outputs ≤ length prompts)%nat ∧
    stdout st' = stdout st ++ flat_map failure_lines parallel_outputs ∧
    length (stdout st') =
      (length (stdout st) + 3 * failures parallel_outputs)%nat ∧
    (length outputs + failures parallel_outputs =
       length prompts + failures parallel_outputs * Z.to_nat (n args))%nat ∧
    (Forall (task_ok args (cache st)) prompts →
       failures parallel_outputs = 0%nat ∧ stdout st' = stdout st ∧
       length outputs = length prompts) ∧
    (Forall (task_fails args (cache st)) prompts →
       failures parallel_outputs = length prompts) ∧
    (n args = 1 → length outputs = length prompts).
Proof.
  intros Hmp Hperm Hrun.
  destruct (run_batch_parallel_inv prompts order st outputs st' Hmp Hperm Hrun)
    as (po & s1 & Hpool & Hlen & Hsrc & -> & Hout).
  assert (length (flat_map failure_lines po) = (3 * failures po)%nat ∧
          (length (flat_map (placed args) po) + failures po =
             length po + failures po * Z.to_nat (n args))%nat ∧
          (failures po ≤ length po)%nat) as (Hlines & Hcount & Hle).
  { clear. unfold failures.
    induction po as [|[r|status tb] po (IH1 & IH2 & IH3)];
      cbn [flat_map failure_lines placed List.filter is_failure length];
      rewrite ?length_app, ?length_replicate; simpl; lia. }
  assert (∀ P : Outcome → Prop,
            (∀ i p o, prompts !! i = Some p → captured args (cache st) p o → P o) →
            Forall P po) as Hall.
  { intros P HP. apply Forall_lookup. intros i o Hi.
    destruct (Hsrc i o Hi) as (p & Hp & Hcap). by apply (HP i p). }
  exists po, s1. split; [done|]. split; [done|].
  split; [|split; [lia|split; [done|split; [|split; [lia|split; [|split]]]]]].
  - intros i p Hp.
    destruct (run_tasks_in_parallel_trace (cache st) prompts order st po s1
                Hperm Hpool i p Hp) as (k & o & Hk & Ho & Hcap).
    exists k, o. split; [done|]. split; [done|].
    unfold capture in Hcap.
    destruct (run_single args (p, cache st)
                (reached args (cache st) prompts order k st)) as [[v|e] s2];
      inversion Hcap; subst; simpl.
    + split; [done|]. by intros [e He].
    + split; [|done]. intros _. by exists e.
  - rewrite Hout, length_app, Hlines. lia.
  - intros Hok.
    assert (failures po = 0%nat) as Hzero.
    { assert (Forall (λ o, is_failure o = false) po) as Hnone.
      { apply Hall. intros i p o Hp Hcap.
        destruct (captured_ok args _ _ _ (Forall_lookup_1 _ _ _ _ Hok Hp) Hcap)
          as (r & -> & _).
        done. }
      clear -Hnone. unfold failures.
      induction Hnone as [|o po Ho _ IH]; [done|]. simpl. by rewrite Ho. }
    split; [done|]. split; [|lia].
    rewrite Hout. destruct (flat_map failure_lines po); [by rewrite app_nil_r|].
    simpl in Hlines. lia.
  - intros Hfail. rewrite <- Hlen.
    assert (Forall (λ o, is_failure o = true) po) as Hevery.
    { apply Hall. intros i p o Hp Hcap.
      destruct (captured_fails _ _ _ (Forall_lookup_1 _ _ _ _ Hfail Hp) Hcap)
        as (tb & ->).
      done. }
    clear -Hevery. unfold failures.
    induction Hevery as [|o po Ho _ IH]; [done|]. simpl. rewrite Ho. simpl. lia.
  - intros Hn. rewrite Hn in Hcount. simpl in Hcount. lia.
Qed.

(** X13. On the parallel path, whatever order the pool is given, the only
    exception that leaves [run_batch] is the [UnboundLocalError] of the
    final loop, and it needs a cache and a batch whose first prompt is not
    a list: the failures of the tasks themselves never leave it. *)
Theorem parallel_path_raises_only_in_the_loop prompts order st e st' :
  1 < multiprocess args →
  run_batch args prompts order st = (Raise e, st') →
  e = UnboundLocalError "prompt_cache" ∧
  is_Some (cache st) ∧
  ∃ text rest, prompts = PStr text :: rest.
Proof.
  intros Hmp. rewrite run_batch_unfold, execute_parallel by done.
  destruct (run_tasks_in_parallel _ _ _ st) as [r1 s1] eqn:Hpool.
  apply run_tasks_in_parallel_frame in Hpool as ([po ->] & _ & Hc & _).
  destruct (collect_spec args po [] s1) as (outs & s2 & Hcol & _ & _ & Hc2 & _).
  rewrite Hcol.
  destruct (cache s2) as [cm|] eqn:Hcm; [|done].
  rewrite (store_outputs_sem _ _ _ cm Hcm).
  destruct (loop_raises (zip prompts outs) None) eqn:Hr; [|done].
  assert (cache st = Some cm) as Hcst by congruence.
  intros Heq; inversion Heq; subst. split; [done|].
  split; [by eexists|].
  destruct prompts as [|[text|msgs] rest]; [done| |by destruct outs].
  by exists text, rest.
Qed.

(** X7. With a cache, a batch whose first prompt is plain text makes
    [run_batch] raise [UnboundLocalError] on both paths, and the cache and
    the cache file stay as they were.  On the sequential path it raises
    at once, before any worker call; on the parallel path (with [n]
    positive) it raises in the final loop, after the pool has run. *)
Theorem plain_first_prompt_raises (text : string) (rest : list prompt) order st cm :
  cache st = Some cm →
  (multiprocess args ≤ 1 ∨
   (1 < multiprocess args ∧ order ≡ₚ seq 0 (S (length rest)) ∧ 0 < n args)) →
  ∃ st',
    run_batch args (PStr text :: rest) order st
      = (Raise (UnboundLocalError "prompt_cache"), st') ∧
    cache st' = cache st ∧ disk st' = disk st ∧
    (multiprocess args ≤ 1 → st' = st).
Proof.
  intros Hcm [Hmp|(Hmp & Hperm & Hn)].
  - exists st. rewrite run_batch_unfold, execute_sequential by done.
    cbn [map]. rewrite mapM_cons, run_single_eq, Hcm. simpl. done.
  - destruct (execute_parallel_inv (PStr text :: rest) order st Hmp Hperm)
      as (po & st1 & Hexec & Hlen & Hsrc & Hc & Hd).
    rewrite run_batch_unfold, Hexec, Hc, Hcm.
    destruct po as [|o po]; [done|].
    destruct (Hsrc 0%nat o eq_refl) as (p & Hp & (sa & sb & Hcap)).
    inversion Hp; subst p. unfold capture in Hcap.
    rewrite run_single_eq, Hcm in Hcap. simpl in Hcap. inversion Hcap; subst o.
    assert (∃ k, Z.to_nat (n args) = S k) as [k Hk].
    { exists (Nat.pred (Z.to_nat (n args))). lia. }
    cbn [flat_map placed]. rewrite Hk. cbn [replicate app zip zip_with].
    rewrite (store_outputs_sem _ _ _ cm) by congruence. simpl.
    exists st1. split; [done|]. split; [congruence|]. split; [done|]. lia.
Qed.

(** ** Running a batch again *)

Lemma written_id cm (l : list (string * pyval)) :
  (∀ kv, kv ∈ l → cm !! kv.1 = Some kv.2) → written cm l = cm.
Proof.
  induction l as [|[k v] l IH]; intros Hl; [done|].
  rewrite written_cons. simpl.
  rewrite insert_id by (apply (Hl (k, v)), list_elem_of_here).
  apply IH. intros kv Hkv. by apply Hl, list_elem_of_further.
Qed.

Lemma written_keyed_own cm prompts outputs i msgs o :
  Forall (λ p, is_list p = true) prompts →
  prompts !! i = Some (PList msgs) → outputs !! i = Some o →
  (∀ k msgs', (i < k)%nat → prompts !! k = Some (PList msgs') →
              json_dumps msgs' ≠ json_dumps msgs) →
  written cm (keyed prompts outputs) !! json_dumps msgs = Some o.
Proof.
  intros Hlists Hp Ho Hlater. apply (written_lookup_last _ _ i).
  - by rewrite keyed_lookup, Hp, Ho.
  - intros k kv Hik. rewrite keyed_lookup by done.
    destruct (prompts !! k) as [[text|msgs']|] eqn:Hk; try done;
      destruct (outputs !! k); try done.
    simpl. intros Heq; inversion Heq; subst. simpl. by eapply Hlater.
Qed.

Lemma written_keyed_some cm prompts outputs i msgs :
  Forall (λ p, is_list p = true) prompts →
  length outputs = length prompts →
  prompts !! i = Some (PList msgs) →
  ∃ j o, outputs !! j = Some o ∧
         written cm (keyed prompts outputs) !! json_dumps msgs = Some o.
Proof.
  intros Hlists Hlen Hp.
  destruct (last_occurrence key_of prompts i (PList msgs) Hp)
    as (j & y & _ & Hj & Hkey & Hlater).
  pose proof (Forall_lookup_1 _ _ _ _ Hlists Hj) as Hy.
  destruct y as [text|msgs']; [done|]. simpl in Hkey.
  destruct (lookup_lt_is_Some_2 outputs j) as [o Ho].
  { rewrite Hlen. by eapply lookup_lt_Some. }
  exists j, o. split; [done|].
  assert (json_dumps msgs' = json_dumps msgs) as <- by congruence.
  apply (written_keyed_own _ _ _ j); try done.
  intros k msgs'' Hjk Hk Heq.
  apply (Hlater k (PList msgs'') Hjk Hk). simpl. congruence.
Qed.

Lemma result_for_len c p v : result_for args c p v → py_len v = n args.
Proof.
  intros [Hhit|(_ & w & w' & items & _ & _ & Hn)]; [|done].
  by apply cache_get_Some in Hhit as (cm & msgs & _ & _ & _ & Hn).
Qed.

(** X8. After a batch of list prompts in which no task fails, the cache
    serves every prompt of the batch: running the same batch again with
    that cache makes no worker call, returns for each prompt the entry
    stored under its serialization, and leaves the cache as it is.  When
    the prompts have pairwise different serializations, the second run
    returns exactly what the first one returned. *)
Theorem rerun_is_served_from_cache prompts order order' st cm :
  cache st = Some cm →
  Forall (task_ok args (Some cm)) prompts →
  (1 < multiprocess args →
   order ≡ₚ seq 0 (length prompts) ∧ order' ≡ₚ seq 0 (length prompts)) →
  ∃ outputs st1,
    run_batch args prompts order st = (Ok outputs, st1) ∧
    ∀ st2, cache st2 = cache st1 →
      ∃ outputs' st3,
        run_batch args prompts order' st2 = (Ok outputs', st3) ∧
        calls st3 = calls st2 ∧
        cache st3 = cache st1 ∧
        (∀ i msgs o', prompts !! i = Some (PList msgs) → outputs' !! i = Some o' →
                      cache st1 ≫= (λ m, m !! json_dumps msgs) = Some o') ∧
        ((∀ i j msgs msgs', prompts !! i = Some (PList msgs) →
                            prompts !! j = Some (PList msgs') →
                            json_dumps msgs = json_dumps msgs' → i = j) →
         outputs' = outputs).
Proof.
  intros Hcm Hall Hperm.
  pose proof (task_ok_lists _ _ _ Hall) as Hlists.
  destruct (run_batch_ok args prompts order st) as (outputs & st1 & Hrun & HF & _ & _ & _ & Hc1).
  { by rewrite Hcm. }
  { intros Hmp. by apply Hperm. }
  rewrite Hcm in HF, Hc1. simpl in Hc1.
  pose proof (Forall2_length _ _ _ HF) as Hlen. symmetry in Hlen.
  set (cm1 := written cm (keyed prompts outputs)) in *.
  exists outputs, st1. split; [done|]. intros st2 Hc2. rewrite Hc1 in Hc2.
  assert (∀ p, p ∈ prompts → is_Some (cache_get args (Some cm1) p)) as Hhit.
  { intros p Hp. apply list_elem_of_lookup_1 in Hp as [i Hi].
    pose proof (Forall_lookup_1 _ _ _ _ Hlists Hi) as Hl.
    destruct p as [text|msgs]; [done|].
    destruct (written_keyed_some cm prompts outputs i msgs Hlists Hlen Hi)
      as (j & o & Ho & Hw).
    exists o. apply cache_get_Some. exists cm1, msgs. split_and!; try done.
    destruct (Forall2_lookup_r _ _ _ _ _ HF Ho) as (q & _ & Hq).
    by eapply result_for_len. }
  destruct (run_batch_ok args prompts order' st2) as (outputs' & st3 & Hrun' & HF' & _ & _ & _ & Hc3).
  { rewrite Hc2. apply Forall_forall. intros p Hp. left. by apply Hhit. }
  { intros Hmp. by apply Hperm. }
  rewrite Hc2 in HF', Hc3. simpl in Hc3.
  assert (∀ i msgs o', prompts !! i = Some (PList msgs) → outputs' !! i = Some o' →
                       cm1 !! json_dumps msgs = Some o') as Hserved.
  { intros i msgs o' Hp Ho'.
    destruct (Forall2_lookup_l _ _ _ _ _ HF' Hp) as (o'' & Ho'' & Hr).
    rewrite Ho' in Ho''. inversion Ho''; subst o''.
    destruct (Hhit (PList msgs)) as [v Hv]; [by eapply list_elem_of_lookup_2|].
    destruct Hr as [Hr|[Hr _]]; [|congruence].
    by apply cache_get_Some in Hr as (? & ? & [= <-] & [= <-] & Hk & _). }
  exists outputs', st3. split; [done|]. split; [|split; [|split]].
  - pose proof Hrun' as Hrun''. rewrite run_batch_unfold in Hrun''.
    destruct (execute args prompts order' st2) as [[outs|e] s1] eqn:Hexec; [|done].
    destruct (execute_calls_any _ _ _ _ _ Hexec) as (extra & Hcalls & HFx).
    assert (extra = []) as ->.
    { destruct extra as [|q extra]; [done|].
      apply Forall_cons in HFx as [[Hq Hnone] _].
      rewrite Hc2 in Hnone. destruct (Hhit q Hq) as [v Hv]. congruence. }
    rewrite app_nil_r in Hcalls.
    pose proof (execute_frame _ _ _ _ _ _ Hexec) as [Hce _].
    rewrite Hce, Hc2 in Hrun''.
    rewrite (store_outputs_sem _ _ _ cm1) in Hrun'' by congruence.
    destruct (loop_raises _ _); inversion Hrun''; subst. done.
  - rewrite Hc3, Hc1. f_equal. apply written_id.
    intros [k v] Hkv. apply list_elem_of_lookup_1 in Hkv as [i Hi].
    rewrite keyed_lookup in Hi by done.
    destruct (prompts !! i) as [[text|msgs]|] eqn:Hp; try done;
      destruct (outputs' !! i) as [o'|] eqn:Ho'; try done.
    simpl in Hi. inversion Hi; subst. simpl. by eapply Hserved.
  - intros i msgs o' Hp Ho'. rewrite Hc1. simpl. by eapply Hserved.
  - intros Hdistinct. apply list_eq. intros i.
    pose proof (Forall2_length _ _ _ HF') as Hlen'.
    destruct (prompts !! i) as [p|] eqn:Hp.
    + pose proof (Forall_lookup_1 _ _ _ _ Hlists Hp) as Hl.
      destruct p as [text|msgs]; [done|].
      destruct (lookup_lt_is_Some_2 outputs i) as [o Ho].
      { rewrite Hlen. by eapply lookup_lt_Some. }
      destruct (lookup_lt_is_Some_2 outputs' i) as [o' Ho'].
      { rewrite <- Hlen'. by eapply lookup_lt_Some. }
      rewrite Ho, Ho'. f_equal.
      pose proof (Hserved i msgs o' Hp Ho') as Hs.
      unfold cm1 in Hs.
      rewrite (written_keyed_own cm prompts outputs i msgs o Hlists Hp Ho) in Hs.
      * by inversion Hs.
      * intros k msgs' Hik Hk Heq.
        pose proof (Hdistinct i k msgs msgs' Hp Hk (eq_sym Heq)). lia.
    + apply lookup_ge_None in Hp.
      rewrite (proj2 (lookup_ge_None outputs i)) by lia.
      by rewrite (proj2 (lookup_ge_None outputs' i)) by lia.
Qed.

(** ** [run_main] on a benchmark *)

Lemma run_batch_disk prompts order st r st' :
  run_batch args prompts order st = (r, st') → disk st' = disk st.
Proof.
  rewrite run_batch_unfold.
  destruct (execute args prompts order st) as [[outs|e] st1] eqn:Hexec;
    apply execute_frame in Hexec as [Hc Hd].
  - destruct (cache st1) as [cm|] eqn:Hcm.
    + rewrite (store_outputs_sem _ _ _ cm Hcm).
      destruct (loop_raises _ _); intros Heq; by inversion Heq; subst.
    + intros Heq; by inversion Heq; subst.
  - intros Heq; by inversion Heq; subst.
Qed.

Section main.
Context {Problem : Type}.
Variable format_prompt : Problem → prompt.
Variable format_repair_prompt : string → string → bool → string → prompt.

(** X9. In a benchmark scenario [run_main] formats the problems, runs the
    batch and only then writes the cache file.  When the batch raises,
    [run_main] raises the same exception and the file is as it was.  When
    [run_main] returns, it returns the outputs of the batch; with a cache
    the file holds exactly the cache, so that a runner constructed from it
    starts with that cache, and without a cache the file is as it was. *)
Theorem run_main_saves_after_the_batch (benchmark : list Problem)
    (check_metadata : list check) (order : list nat) st r st' :
  scenario args = other_scenario →
  run_main args format_prompt format_repair_prompt benchmark check_metadata order st
    = (r, st') →
  match r with
  | Raise e =>
      run_batch args (map format_prompt benchmark) order st = (Raise e, st') ∧
      disk st' = disk st
  | Ok mo =>
      ∃ outputs st1,
        mo = Generated outputs ∧
        run_batch args (map format_prompt benchmark) order st = (Ok outputs, st1) ∧
        cache st' = cache st1 ∧ calls st' = calls st1 ∧
        match cache st' with
        | Some cm =>
            disk st' = Some cm ∧
            ∀ w : W, cache (BaseRunner_init true w (disk st')) = Some cm
        | None => disk st' = disk st
        end
  end.
Proof.
  intros Hsc. unfold run_main. rewrite Hsc. unfold bind at 1.
  destruct (run_batch args (map format_prompt benchmark) order st)
    as [[outputs|e] st1] eqn:Hrun.
  - pose proof (run_batch_disk _ _ _ _ _ Hrun) as Hd.
    unfold bind, save_cache, ret.
    destruct (cache st1) as [cm|] eqn:Hcm.
    + intros Heq; inversion Heq; subst. exists outputs, st1. simpl.
      rewrite Hcm. by split_and!.
    + intros Heq; inversion Heq; subst. exists outputs, st'.
      rewrite Hcm. by split_and!.
  - intros Heq; inversion Heq; subst. split; [done|].
    by eapply run_batch_disk.
Qed.

(** ** Self-repair on ill-formed records *)

Lemma mapM_Raise_inv {A B} (f : A → M (W:=W) B) (l : list A) st e st' :
  mapM f l st = (Raise e, st') →
  ∃ x s, x ∈ l ∧ f x s = (Raise e, st') .
Proof.
  revert st. induction l as [|x l IH]; intros st; [done|].
  rewrite mapM_cons.
  destruct (f x st) as [[y|e'] s1] eqn:Hx.
  - destruct (mapM f l s1) as [[ys|e'] s2] eqn:Hl; [done|].
    intros Heq; inversion Heq; subst.
    destruct (IH _ Hl) as (x' & s & Hin & Hf).
    exists x', s. split; [by apply list_elem_of_further|done].
  - intros Heq; inversion Heq; subst.
    exists x, st. split; [apply list_elem_of_here|done].
Qed.

Lemma mapM_pure {A B} (f : A → M (W:=W) B) (l : list A) (ys : list B) st :
  Forall2 (λ x y, f x st = (Ok y, st)) l ys →
  mapM f l st = (Ok ys, st).
Proof.
  induction 1 as [|x y l ys Hx _ IH]; [done|].
  by rewrite mapM_cons, Hx, IH.
Qed.

(** X10. When the worker does not raise, self-repair returns exactly when
    every record can be replayed: each attempt has a grade and metadata at
    its index, and a stored output at its index where the repair prompt is
    empty or not a list (a stored output that is not needed may be
    missing).  Otherwise it raises, and the exception is [IndexError]. *)
Theorem self_repair_raises_only_IndexError (benchmark : list Problem)
    (check_metadata : list check) (order : list nat) st :
  scenario args = selfrepair →
  (∀ p w, ∃ items w', _run_single p w = (inr items, w')) →
  let r := (run_main args format_prompt format_repair_prompt
              benchmark check_metadata order st).1 in
  ((∃ outputs, r = Ok (Repaired outputs)) ↔
   Forall (replayable format_repair_prompt) check_metadata) ∧
  (∀ e, r = Raise e → e = IndexError).
Proof.
  intros Hsc Hworker r.
  assert (r = match mapM (repair_check format_repair_prompt) check_metadata st with
              | (Ok outputs, _) => Ok (Repaired outputs)
              | (Raise e, _) => Raise e
              end) as Hr.
  { unfold r, run_main. rewrite Hsc. unfold bind, ret.
    by destruct (mapM _ _ st) as [[outputs|e] st']. }
  assert (∀ chk i s e s', repair_attempt format_repair_prompt chk i s = (Raise e, s') →
                          e = IndexError) as Hattempt.
  { intros chk i s e s'. rewrite repair_attempt_eq.
    destruct (attempt_prompt format_repair_prompt chk i) as [p|];
      [|by intros Heq; inversion Heq].
    destruct (is_empty_str p || negb (is_list p)).
    - destruct (output_list chk !! i); intros Heq; by inversion Heq.
    - unfold call_method.
      destruct (Hworker p (world s)) as (items & w' & ->). done. }
  rewrite Hr. split; [split|].
  - intros [outputs Hok].
    destruct (mapM _ _ st) as [[outs|e] st'] eqn:Hrun; [|done].
    apply (mapM_Ok_inv _ (λ chk _, replayable format_repair_prompt chk)
             (check_calls format_repair_prompt)) in Hrun as [HF _].
    + clear -HF. induction HF; by constructor.
    + intros chk s out s' _ Hchk.
      apply repair_check_Ok in Hchk as [[Hlen Hrep] Hc]. split; [|done].
      intros i Hi.
      destruct (lookup_lt_is_Some_2 out i) as [v Hv]; [by rewrite Hlen|].
      destruct (Hrep i v Hv) as (p & Hp & Hcase).
      exists p. split; [done|]. intros Hreuse. rewrite Hreuse in Hcase. by eexists.
  - intros Hall.
    destruct (mapM_total (repair_check format_repair_prompt) check_metadata st)
      as (outputs & st' & Hrun).
    { intros chk s Hchk. unfold repair_check. apply mapM_total.
      intros i s0 Hi. apply elem_of_seq in Hi as [_ Hi]. simpl in Hi.
      destruct (proj1 (Forall_forall _ _) Hall chk Hchk i Hi) as (p & Hp & Hout).
      rewrite repair_attempt_eq, Hp.
      destruct (is_empty_str p || negb (is_list p)).
      - destruct (Hout eq_refl) as [v ->]. by eexists _, _.
      - unfold call_method.
        destruct (Hworker p (world s0)) as (items & w' & ->). by eexists _, _. }
    rewrite Hrun. by exists outputs.
  - intros e.
    destruct (mapM _ _ st) as [[outs|e'] st'] eqn:Hrun; [done|].
    intros Heq; inversion Heq; subst e'.
    apply mapM_Raise_inv in Hrun as (chk & s & _ & Hchk).
    apply mapM_Raise_inv in Hchk as (i & s0 & _ & Hi).
    by eapply Hattempt.
Qed.

(** X11. When no repair prompt is a list, self-repair is the identity on
    the stored outputs: for records whose lists are aligned it returns the
    stored outputs of every record, makes no worker call and changes
    nothing. *)
Theorem self_repair_without_list_prompts (benchmark : list Problem)
    (check_metadata : list check) (order : list nat) st :
  scenario args = selfrepair →
  (∀ question code graded meta,
     is_list (format_repair_prompt question code graded meta) = false) →
  Forall aligned check_metadata →
  run_main args format_prompt format_repair_prompt benchmark check_metadata order st
    = (Ok (Repaired (output_list <$> check_metadata)), st).
Proof.
  intros Hsc Hplain Hal. unfold run_main. rewrite Hsc. unfold bind.
  rewrite (mapM_pure _ _ (output_list <$> check_metadata)); [done|].
  apply Forall2_fmap_r, Forall_Forall2_diag.
  eapply Forall_impl; [exact Hal|]. intros chk (Hg & Hm & Ho).
  unfold repair_check. apply mapM_pure.
  apply Forall2_same_length_lookup_2; [by rewrite length_seq|].
  intros i j v Hj Hv. apply lookup_seq in Hj as [-> Hi]. simpl in Hi.
  rewrite repair_attempt_eq. unfold attempt_prompt. simpl.
  destruct (lookup_lt_is_Some_2 (code_list chk) i Hi) as [code ->].
  destruct (lookup_lt_is_Some_2 (graded_list chk) i) as [graded ->]; [lia|].
  destruct (lookup_lt_is_Some_2 (metadata chk) i) as [meta ->]; [lia|].
  simpl. rewrite Hplain, orb_true_r. by rewrite Hv.
Qed.

End main.

End More.

(** * The further properties on concrete batches *)

Section More_demo.
Import Demo.

Lemma order_10 : [1; 0]%nat ≡ₚ seq 0 2.
Proof. apply perm_swap. Defined.

(** X1 at work: the output paired with a plain prompt replaces the entry
    of task A. *)
Lemma plain_prompt_overwrites_previous_key_witness :
  ∃ st2,
    store_outputs [(task_A, x1x2); (PStr "s", VStr EmptyString)] None (fresh true)
      = (Ok tt, st2) ∧
    cache st2 ≫= (λ m, m !! key_A) = Some (VStr EmptyString).
Proof.
  refine (plain_prompt_overwrites_previous_key [] (user "A") x1x2
            [(PStr "s", VStr EmptyString)] None (fresh true) ∅ (fresh true) _ _ _).
  - reflexivity.
  - reflexivity.
  - apply List.Forall_cons; [reflexivity|apply List.Forall_nil].
Defined.

(** X2 at work: a batch with a failing task, from a cache that holds A. *)
Lemma run_batch_only_adds_entries_witness :
  let st' := (run_batch (backend:=flaky) args_par ABA [0; 1; 2]%nat stocked).2 in
  disk st' = disk stocked ∧
  ∃ cm', cache st' = Some cm' ∧
    (∀ k, is_Some (({[key_A := x1x2]} : gmap string pyval) !! k) → is_Some (cm' !! k)) ∧
    (∀ k, is_Some (cm' !! k) →
          is_Some (({[key_A := x1x2]} : gmap string pyval) !! k) ∨
          ∃ msgs, PList msgs ∈ ABA ∧ k = json_dumps msgs).
Proof.
  intros st'.
  refine (run_batch_only_adds_entries (backend:=flaky) args_par ABA [0; 1; 2]%nat
            stocked
            (run_batch (backend:=flaky) args_par ABA [0; 1; 2]%nat stocked).1 st' _).
  apply surjective_pairing.
Defined.

(** X4 at work: tasks A, B, A on the sequential path. *)
Lemma sequential_return_is_complete_witness :
  let st' := (run_batch (backend:=steady) args_seq ABA [] (fresh true)).2 in
  length [x1x2; x1x2; x1x2] = length ABA ∧
  Forall (λ v, py_len v = n args_seq) [x1x2; x1x2; x1x2] ∧
  calls st' = [] ++ misses args_seq (Some ∅) ABA ∧
  stdout st' = [] ∧
  (is_Some (Some (∅ : gmap string pyval)) → Forall (λ p, is_list p = true) ABA).
Proof.
  intros st'.
  apply (sequential_return_is_complete (backend:=steady) args_seq ABA []
           (fresh true) [x1x2; x1x2; x1x2] st').
  - vm_compute. discriminate.
  - reflexivity.
Defined.

(** X5 at work: with A in the cache, only B reaches the worker. *)
Lemma worker_called_only_for_misses_witness :
  let st' := (run_batch (backend:=flaky) args_par ABA [0; 1; 2]%nat stocked).2 in
  ∃ extra, calls st' = [] ++ extra ∧
    Forall (λ q, q ∈ ABA ∧ cache_get args_par (cache stocked) q = None) extra.
Proof.
  intros st'.
  refine (worker_called_only_for_misses (backend:=flaky) args_par ABA [0; 1; 2]%nat
            stocked
            (run_batch (backend:=flaky) args_par ABA [0; 1; 2]%nat stocked).1 st' _).
  apply surjective_pairing.
Defined.

(** X6 at work: task B fails on the parallel path; the outcomes sit at
    the indices of the tasks although B completed last. *)
Lemma parallel_return_shape_witness :
  ∃ parallel_outputs s1,
    run_tasks_in_parallel (run_single (backend:=flaky) args_par)
      (map (λ p, (p, cache (fresh false))) ABA) [2; 0; 1]%nat (fresh false)
      = (Ok parallel_outputs, s1) ∧
    parallel_outputs
      = [Success x1x2; Failure "EXCEPTION" "RuntimeError: B"; Success x1x2] ∧
    (∀ (i : nat) o, parallel_outputs !! i = Some o →
       ∃ p, ABA !! i = Some p ∧
            captured (backend:=flaky) args_par (cache (fresh false)) p o ∧
            outcome_of (backend:=flaky) args_par (cache (fresh false)) p o) ∧
    [x1x2; VStr EmptyString; VStr EmptyString; x1x2]
      = flat_map (placed args_par) parallel_outputs ∧
    Forall (λ v, py_len v = n args_par ∨ v = VStr EmptyString)
      [x1x2; VStr EmptyString; VStr EmptyString; x1x2].
Proof.
  destruct (parallel_return_shape (backend:=flaky) args_par ABA [2; 0; 1]%nat
              (fresh false) [x1x2; VStr EmptyString; VStr EmptyString; x1x2]
              (run_batch (backend:=flaky) args_par ABA [2; 0; 1]%nat (fresh false)).2
              eq_refl order_201 eq_refl)
    as (po & s1 & Hpool & _ & Hsrc & _ & _ & _ & Hout & _ & Hshape).
  exists po, s1. split; [exact Hpool|]. split; [|by split].
  vm_compute in Hpool. by inversion Hpool.
Defined.

(** X12 at work: one failure, three lines, four elements for three tasks. *)
Lemma parallel_failures_are_counted_witness :
  let st' := (run_batch (backend:=flaky) args_par ABA [2; 0; 1]%nat (fresh false)).2 in
  ∃ parallel_outputs,
    parallel_outputs
      = [Success x1x2; Failure "EXCEPTION" "RuntimeError: B"; Success x1x2] ∧
    failures parallel_outputs = 1%nat ∧
    stdout st' = stdout (fresh false) ++ flat_map failure_lines parallel_outputs ∧
    length (stdout st') = (0 + 3 * failures parallel_outputs)%nat ∧
    (4 + failures parallel_outputs
       = 3 + failures parallel_outputs * Z.to_nat (n args_par))%nat.
Proof.
  intros st'.
  destruct (parallel_failures_are_counted (backend:=flaky) args_par ABA [2; 0; 1]%nat
              (fresh false) [x1x2; VStr EmptyString; VStr EmptyString; x1x2] st'
              eq_refl order_201 eq_refl)
    as (po & s1 & Hpool & _ & _ & _ & Hout & Hlines & Hcount & _).
  exists po.
  assert (po = [Success x1x2; Failure "EXCEPTION" "RuntimeError: B"; Success x1x2])
    as Hpo.
  { vm_compute in Hpool. by inversion Hpool. }
  split; [exact Hpo|]. split; [by rewrite Hpo|]. by split.
Defined.

(** X13 at work: the plain prompt "A" first, with a cache. *)
Lemma parallel_path_raises_only_in_the_loop_witness :
  UnboundLocalError "prompt_cache" = UnboundLocalError "prompt_cache" ∧
  is_Some (cache (fresh true)) ∧
  ∃ text rest, [PStr "A"; task_B] = PStr text :: rest.
Proof.
  apply (parallel_path_raises_only_in_the_loop (backend:=steady) args_par
           [PStr "A"; task_B] [1; 0]%nat (fresh true) _
           (run_batch (backend:=steady) args_par [PStr "A"; task_B] [1; 0]%nat
              (fresh true)).2).
  - reflexivity.
  - reflexivity.
Defined.

(** X7 at work: the same batch, on the parallel path. *)
Lemma plain_first_prompt_raises_witness :
  ∃ st',
    run_batch (backend:=steady) args_par (PStr "A" :: [task_B]) [1; 0]%nat (fresh true)
      = (Raise (UnboundLocalError "prompt_cache"), st') ∧
    cache st' = cache (fresh true) ∧ disk st' = disk (fresh true) ∧
    (multiprocess args_par ≤ 1 → st' = fresh true).
Proof.
  apply (plain_first_prompt_raises (backend:=steady) args_par "A" [task_B] [1; 0]%nat
           (fresh true) ∅).
  - reflexivity.
  - right. split; [reflexivity|]. split; [apply order_10|reflexivity].
Defined.

(** X8 at work: tasks A, B, A twice on the parallel path. *)
Lemma rerun_is_served_from_cache_witness :
  ∃ outputs st1,
    run_batch (backend:=steady) args_par ABA [2; 0; 1]%nat (fresh true)
      = (Ok outputs, st1) ∧
    ∀ st2, cache st2 = cache st1 →
      ∃ outputs' st3,
        run_batch (backend:=steady) args_par ABA [1; 2; 0]%nat st2 = (Ok outputs', st3) ∧
        calls st3 = calls st2 ∧
        cache st3 = cache st1 ∧
        (∀ i msgs o', ABA !! i = Some (PList msgs) → outputs' !! i = Some o' →
                      cache st1 ≫= (λ m, m !! json_dumps msgs) = Some o') ∧
        ((∀ i j msgs msgs', ABA !! i = Some (PList msgs) →
                            ABA !! j = Some (PList msgs') →
                            json_dumps msgs = json_dumps msgs' → i = j) →
         outputs' = outputs).
Proof.
  apply (rerun_is_served_from_cache (backend:=steady) args_par ABA
           [2; 0; 1]%nat [1; 2; 0]%nat (fresh true) ∅).
  - reflexivity.
  - apply ABA_steady_ok.
  - intros _. split; [apply order_201|apply order_120].
Defined.

(** X9 at work: a benchmark of the tasks A, B, A with a cache. *)
Lemma run_main_saves_after_the_batch_witness :
  let st' := (run_main (backend:=steady) args_seq same repair_prompt_for
                ABA [] [] (fresh true)).2 in
  ∃ outputs st1,
    Generated [x1x2; x1x2; x1x2] = Generated outputs ∧
    run_batch (backend:=steady) args_seq (map same ABA) [] (fresh true)
      = (Ok outputs, st1) ∧
    cache st' = cache st1 ∧ calls st' = calls st1 ∧
    match cache st' with
    | Some cm =>
        disk st' = Some cm ∧
        ∀ w : unit, cache (BaseRunner_init true w (disk st')) = Some cm
    | None => disk st' = disk (fresh true)
    end.
Proof.
  intros st'.
  apply (run_main_saves_after_the_batch (backend:=steady) args_seq same
           repair_prompt_for ABA [] [] (fresh true)
           (Ok (Generated [x1x2; x1x2; x1x2])) st').
  - reflexivity.
  - reflexivity.
Defined.

(** X10 at work: a record that can be replayed. *)
Lemma self_repair_raises_only_IndexError_witness :
  let r := (run_main (backend:=steady) args_repair same repair_prompt_for
              [] graded_run [] (fresh true)).1 in
  ((∃ outputs, r = Ok (Repaired outputs)) ↔
   Forall (replayable repair_prompt_for) graded_run) ∧
  (∀ e, r = Raise e → e = IndexError).
Proof.
  apply (self_repair_raises_only_IndexError (backend:=steady) args_repair same
           repair_prompt_for [] graded_run [] (fresh true)).
  - reflexivity.
  - intros p w. by exists ["x1"; "x2"], w.
Defined.

(** X11 at work: the stored outputs come back unchanged. *)
Lemma self_repair_without_list_prompts_witness :
  run_main (backend:=broken) args_repair same no_repair [] graded_run [] (fresh true)
    = (Ok (Repaired [[VStr "o0"; VStr "o1"]]), fresh true).
Proof.
  apply (self_repair_without_list_prompts (backend:=broken) args_repair same
           no_repair [] graded_run [] (fresh true)).
  - reflexivity.
  - intros question code graded meta. reflexivity.
  - apply List.Forall_cons; [|apply List.Forall_nil]. vm_compute. done.
Defined.

End More_demo.
